(** * Perceptual difference between an input frame and its synthesized
      counterpart (1850_pd.py)

    The script loads two frames, preprocesses them, runs a pretrained
    ResNet-18 in features-only mode on both, and aggregates a per-pixel
    normalised L1 distance over all feature layers; the map is rendered as
    a heatmap and saved.

    Modelling choices.
    - Scalars are exact rationals ([Qc], canonical fractions with Leibniz
      equality).  The rounding of the float32 kernels is not modelled.
    - A tensor is its NCHW shape together with an index function.
    - Python exceptions are the [Raise] branch of [result]; the loops
      thread the map they update through a left monadic fold.
    - The library calls the script makes ([F.interpolate], [F.l1_loss],
      indexing, [zip], [range]) are written out after PyTorch's and
      Python's documented behaviour. *)

From Stdlib Require Import QArith Qcanon Qcabs Qround.
From Stdlib.Strings Require Import Byte Ascii.
From stdpp Require Import base numbers list strings gmap pretty.

Local Open Scope Qc_scope.

(** ** Exceptions and the error monad *)

Inductive exn : Type :=
  | IndexError          (* sequence or tensor index out of range *)
  | RuntimeError        (* PyTorch shape and size checks *)
  | ValueError          (* torchvision argument checks *)
  | FileNotFoundError   (* missing file or missing parent directory *)
  | UnidentifiedImageError (* PIL cannot decode the file *)
  | TypeError           (* matplotlib refuses the shape of the image data *)
  | ZeroDivisionError   (* Python division by zero *)
  | AttributeError.     (* attribute missing on a Python object *)

Inductive result (A : Type) : Type :=
  | Ok (a : A)
  | Raise (e : exn).
Arguments Ok {A} a.
Arguments Raise {A} e.

#[global] Instance result_ret : MRet result := λ A a, Ok a.
#[global] Instance result_bind : MBind result := λ A B f m,
  match m with
  | Ok a => f a
  | Raise e => Raise e
  end.

Definition raises {A} (r : result A) : Prop := ∃ e, r = Raise e.

(** [for x in xs: s = body(s, x)], stopping at the first exception. *)
Fixpoint for_each `{MRet M, MBind M} {S A} (body : S → A → M S) (s : S)
    (xs : list A) : M S :=
  match xs with
  | [] => mret s
  | x :: xs' => s' ← body s x; for_each body s' xs'
  end.

(** Python's [range(n)]. *)
Definition range (n : nat) : list nat := seq 0 n.

(** Python's [zip]: stops at the end of the shorter argument. *)
Fixpoint zip_ {A B} (xs : list A) (ys : list B) : list (A * B) :=
  match xs, ys with
  | x :: xs', y :: ys' => (x, y) :: zip_ xs' ys'
  | _, _ => []
  end.

(** [xs[i]] on a Python sequence (non-negative [i]). *)
Definition getitem {A} (xs : list A) (i : nat) : result A :=
  match xs !! i with
  | Some x => Ok x
  | None => Raise IndexError
  end.

(** ** Scalars *)

Definition Qc_of_nat (n : nat) : Qc := Qc_of_Z (Z.of_nat n).

Definition Qc_half : Qc := Q2Qc (1 # 2).

Definition Qcfloor (x : Qc) : Z := Qfloor (this x).

#[global] Instance Qc_inhabited : Inhabited Qc := populate 0.

Definition Qcsum (xs : list Qc) : Qc := foldr Qcplus 0 xs.

(** ** Tensors *)

(** A 4-D tensor in NCHW layout. *)
Record Tensor : Type := mkTensor {
  size_n : nat;
  size_c : nat;
  size_h : nat;
  size_w : nat;
  item : nat → nat → nat → nat → Qc
}.

(** A 2-D map, as rows of scalars. *)
Abbreviation Map2 := (list (list Qc)).

(** [torch.zeros((height, width))]. *)
Definition zeros (height width : nat) : Map2 :=
  replicate height (replicate width 0).

(** [m[h, w] = v]. *)
Definition setitem2 (m : Map2) (h w : nat) (v : Qc) : result Map2 :=
  match m !! h with
  | Some row =>
      if decide (w < length row)%nat
      then Ok (<[h := <[w := v]> row]> m)
      else Raise IndexError
  | None => Raise IndexError
  end.

(** [t[n, :, h, w]]: the vector of all channels at one position. *)
Definition select_channels (t : Tensor) (n h w : nat) : result (list Qc) :=
  if decide (n < size_n t ∧ h < size_h t ∧ w < size_w t)%nat
  then Ok ((λ c, item t n c h w) <$> seq 0 (size_c t))
  else Raise IndexError.

(** ** [F.interpolate(..., mode='bilinear', align_corners=False)] *)

(** Source coordinate of the centre of output pixel [dst]; negative
    coordinates are clamped to 0. *)
Definition area_pixel_compute_source_index (scale : Qc) (dst : nat) : Qc :=
  let src := scale * (Qc_of_nat dst + Qc_half) - Qc_half in
  if decide (src < 0) then 0 else src.

(** [min(max(x, 0), 1)], the guard on the interpolation weight. *)
Definition clamp01 (x : Qc) : Qc :=
  if decide (x < 0) then 0 else if decide (1 < x) then 1 else x.

(** The two source indices along one axis and their weights. *)
Definition compute_source_index_and_lambda (input_size output_size dst : nat)
  : nat * nat * Qc * Qc :=
  if decide (output_size = input_size) then (dst, dst, 1, 0)
  else
    let scale := Qc_of_nat input_size / Qc_of_nat output_size in
    let real := area_pixel_compute_source_index scale dst in
    let i0 := Nat.min (Z.to_nat (Qcfloor real)) (input_size - 1) in
    let lambda1 := clamp01 (real - Qc_of_nat i0) in
    let i1 := if decide (i0 < input_size - 1)%nat then S i0 else i0 in
    (i0, i1, 1 - lambda1, lambda1).

(** One output sample of the bilinear kernel. *)
Definition bilinear_at (input : Tensor) (height width : nat)
    (n c h w : nat) : Qc :=
  let '(h0, h1, h0lambda, h1lambda) :=
    compute_source_index_and_lambda (size_h input) height h in
  let '(w0, w1, w0lambda, w1lambda) :=
    compute_source_index_and_lambda (size_w input) width w in
  h0lambda * (w0lambda * item input n c h0 w0 + w1lambda * item input n c h0 w1)
  + h1lambda * (w0lambda * item input n c h1 w0 + w1lambda * item input n c h1 w1).

(** The resize itself.  PyTorch rejects an input with no channels or no
    spatial extent, and a requested size that is not positive; an empty
    batch is accepted. *)
Definition interpolate (input : Tensor) (size : nat * nat) : result Tensor :=
  let '(height, width) := size in
  if decide (0 < size_c input ∧ 0 < size_h input ∧ 0 < size_w input
             ∧ 0 < height ∧ 0 < width)%nat
  then Ok {| size_n := size_n input; size_c := size_c input;
             size_h := height; size_w := width;
             item := bilinear_at input height width |}
  else Raise RuntimeError.

(** ** [F.l1_loss(input, target, reduction='sum')] on vectors *)

(** [torch.broadcast_tensors] on two 1-D tensors: equal lengths pass, a
    length-1 side is expanded, anything else is rejected. *)
Definition broadcast_tensors (x y : list Qc) : result (list Qc * list Qc) :=
  if decide (length x = length y) then Ok (x, y)
  else match x, y with
       | x0 :: nil, _ => Ok (replicate (length y) x0, y)
       | _, y0 :: nil => Ok (x, replicate (length x) y0)
       | _, _ => Raise RuntimeError
       end.

Definition l1_loss_sum (input target : list Qc) : result Qc :=
  '(x, y) ← broadcast_tensors input target;
  Ok (Qcsum (zip_with (λ a b, Qcabs (a - b)) x y)).

(** ** The aggregation (lines 97-115) *)

(** Body of the innermost loop, for one pair of layers at pixel (h, w). *)
Definition pixel_difference (height width h w : nat)
    (fm_input fm_synthesized : Tensor) : result Qc :=
  fm_input_resized ← interpolate fm_input (height, width);
  fm_synthesized_resized ← interpolate fm_synthesized (height, width);
  let num_elements := size_c fm_input_resized in
  x ← select_channels fm_input_resized 0 h w;
  y ← select_channels fm_synthesized_resized 0 h w;
  loss ← l1_loss_sum x y;
  Ok (loss / Qc_of_nat num_elements).

(** The loop over the zipped layers, from the accumulator 0. *)
Definition perceptual_difference (feature_maps_input
    feature_maps_synthesized : list Tensor) (height width h w : nat)
  : result Qc :=
  for_each (λ acc '(fm_input, fm_synthesized),
              d ← pixel_difference height width h w fm_input fm_synthesized;
              Ok (acc + d))
           0 (zip_ feature_maps_input feature_maps_synthesized).

(** The two pixel loops, filling the zero-initialised map in place. *)
Definition perceptual_difference_per_pixel (feature_maps_input
    feature_maps_synthesized : list Tensor) : result Map2 :=
  fm0 ← getitem feature_maps_input 0;
  let height := size_h fm0 in
  let width := size_w fm0 in
  for_each (λ pd h,
     for_each (λ pd w,
        v ← perceptual_difference feature_maps_input
              feature_maps_synthesized height width h w;
        setitem2 pd h w v)
       pd (range width))
    (zeros height width) (range height).

(** ** The aggregation as the specification words it *)

#[global] Instance Tensor_inhabited : Inhabited Tensor :=
  populate (mkTensor 0 0 0 0 (λ _ _ _ _, 0)).

(** Layer [l]'s term at pixel (h, w): the sum over the channels of the
    absolute difference of the two resampled layers, divided by the
    channel count. *)
Definition layer_score (a b : Tensor) (height width h w : nat) : Qc :=
  Qcsum ((λ c, Qcabs (bilinear_at a height width 0 c h w
                      - bilinear_at b height width 0 c h w))
           <$> seq 0 (size_c a))
  / Qc_of_nat (size_c a).

(** The sum of the layer terms over the layer indices [0, L), from 0. *)
Definition aggregate_score (A B : list Tensor) (height width h w : nat) : Qc :=
  foldl (λ acc l, acc + layer_score (A !!! l) (B !!! l) height width h w)
        0 (seq 0 (length A)).

(** Spatial shape of layer 0 of a sequence. *)
Definition ref_shape (A : list Tensor) : nat * nat :=
  match A with
  | fm0 :: _ => (size_h fm0, size_w fm0)
  | [] => (0%nat, 0%nat)
  end.

(** The entry of a map at (h, w), when there is one. *)
Definition map_at (m : Map2) (h w : nat) : option Qc :=
  row ← m !! h; row !! w.

Definition map_shape (m : Map2) (height width : nat) : Prop :=
  length m = height ∧ Forall (λ row, length row = width) m.

(** A layer with a batch entry, a channel and a pixel. *)
Definition nonempty_layer (t : Tensor) : Prop :=
  (0 < size_n t ∧ 0 < size_c t ∧ 0 < size_h t ∧ 0 < size_w t)%nat.

(** The layer/channel invariant: the same number of layers, and the same
    channel count in corresponding layers. *)
Definition layer_invariant (A B : list Tensor) : Prop :=
  Forall2 (λ a b, nonempty_layer a ∧ nonempty_layer b ∧ size_c a = size_c b)
          A B.

(** Valid inputs of the aggregation: at least one layer, and the
    invariant. *)
Definition valid_inputs (A B : list Tensor) : Prop :=
  A ≠ [] ∧ layer_invariant A B.

(** The table of the aggregate scores over a shape. *)
Definition score_table (A B : list Tensor) (height width : nat) : Map2 :=
  (λ h, (λ w, aggregate_score A B height width h w) <$> range width)
    <$> range height.

(** ** The hoisted aggregation (design note: resize once per layer) *)

(** Every layer pair resized once, before the pixel loops. *)
Definition resize_layers (A B : list Tensor) (height width : nat)
  : result (list (Tensor * Tensor)) :=
  mapM (λ '(fm_input, fm_synthesized),
          fm_input_resized ← interpolate fm_input (height, width);
          fm_synthesized_resized ← interpolate fm_synthesized (height, width);
          Ok (fm_input_resized, fm_synthesized_resized))
       (zip_ A B).

(** The layer loop at one pixel, indexing into the resized layers. *)
Definition perceptual_difference_hoisted (resized : list (Tensor * Tensor))
    (h w : nat) : result Qc :=
  for_each (λ acc '(fm_input_resized, fm_synthesized_resized),
              let num_elements := size_c fm_input_resized in
              x ← select_channels fm_input_resized 0 h w;
              y ← select_channels fm_synthesized_resized 0 h w;
              loss ← l1_loss_sum x y;
              Ok (acc + loss / Qc_of_nat num_elements))
           0 resized.

Definition perceptual_difference_per_pixel_hoisted (feature_maps_input
    feature_maps_synthesized : list Tensor) : result Map2 :=
  fm0 ← getitem feature_maps_input 0;
  let height := size_h fm0 in
  let width := size_w fm0 in
  resized ← resize_layers feature_maps_input feature_maps_synthesized
              height width;
  for_each (λ pd h,
     for_each (λ pd w,
        v ← perceptual_difference_hoisted resized h w;
        setitem2 pd h w v)
       pd (range width))
    (zeros height width) (range height).

(** ** Preprocessing (lines 24-40) *)

(** A decoded image in mode RGB: three 8-bit bands, addressed by column,
    row and band. *)
Record Image : Type := mkImage {
  im_width : nat;
  im_height : nat;
  getpixel : nat → nat → nat → byte
}.

(** A 3-D tensor in CHW layout. *)
Record Tensor3 : Type := mkTensor3 {
  dim_c : nat;
  dim_h : nat;
  dim_w : nat;
  item3 : nat → nat → nat → Qc
}.

Definition imagenet_mean : list Qc :=
  [Q2Qc (485 # 1000); Q2Qc (456 # 1000); Q2Qc (406 # 1000)].
Definition imagenet_std : list Qc :=
  [Q2Qc (229 # 1000); Q2Qc (224 # 1000); Q2Qc (225 # 1000)].

(** [transforms.ToTensor()]: CHW layout, intensities scaled by 1/255. *)
Definition ToTensor (img : Image) : Tensor3 :=
  mkTensor3 3 (im_height img) (im_width img)
    (λ c y x, Qc_of_nat (Byte.to_nat (getpixel img x y c)) / Qc_of_nat 255).

(** A per-channel statistic; a one-element list is broadcast over the
    channels. *)
Definition channel_stat (stats : list Qc) (c : nat) : Qc :=
  match stats with
  | s :: nil => s
  | _ => stats !!! c
  end.

(** [transforms.Normalize(mean, std)]: a zero deviation is refused, and
    the statistics have to broadcast onto the channels in place. *)
Definition Normalize (mean std : list Qc) (t : Tensor3) : result Tensor3 :=
  if decide (Exists (λ s, s = 0) std) then Raise ValueError
  else if decide ((length mean = dim_c t ∨ length mean = 1%nat)
                  ∧ (length std = dim_c t ∨ length std = 1%nat))
  then Ok (mkTensor3 (dim_c t) (dim_h t) (dim_w t)
             (λ c y x, (item3 t c y x - channel_stat mean c)
                       / channel_stat std c))
  else Raise RuntimeError.

(** [t.unsqueeze(0)] on a 3-D tensor. *)
Definition unsqueeze (t : Tensor3) : Tensor :=
  mkTensor 1 (dim_c t) (dim_h t) (dim_w t) (λ _ c y x, item3 t c y x).

Section Preprocess.
(** PIL's resampling filter, which the script does not contain: the
    band value at column [x], row [y] of the image resized to
    [width] x [height]. *)
Variable resample : Image → nat → nat → nat → nat → nat → byte.

(** [transforms.Resize((height, width))]: both sides are given, so the
    result has exactly that size. *)
Definition Resize (size : nat * nat) (img : Image) : Image :=
  let '(height, width) := size in
  mkImage width height (resample img width height).

(** The composed transform of lines 34-38. *)
Definition transform (img : Image) : result Tensor3 :=
  let resized := Resize (224, 224)%nat img in
  let tensor := ToTensor resized in
  Normalize imagenet_mean imagenet_std tensor.

(** [transform(image).unsqueeze(0)]. *)
Definition image_tensor (img : Image) : result Tensor :=
  t ← transform img; Ok (unsqueeze t).
End Preprocess.

(** ** Files, and the script as a whole (lines 10-25, 119-151) *)

(** The part of the file system the script touches: the directories
    that exist, and the files by directory and name. *)
Record FileSystem : Type := mkFS {
  directories : gset string;
  files : gmap (string * string) (list byte)
}.

(** Computations that read and write files and may raise. *)
Definition IO (A : Type) : Type := FileSystem → result A * FileSystem.

#[global] Instance IO_ret : MRet IO := λ A a fs, (Ok a, fs).
#[global] Instance IO_bind : MBind IO := λ A B f m fs,
  match m fs with
  | (Ok a, fs') => f a fs'
  | (Raise e, fs') => (Raise e, fs')
  end.

(** A computation without effects on files. *)
Definition lift {A} (r : result A) : IO A := λ fs, (r, fs).

Definition input_dir : string :=
  "/disk/vanishing_data/du541/RGB_in_anovox_832_320_images".
Definition synthesized_dir : string :=
  "/disk/vanishing_data/du541/RGB_out_anovox_832_320_images".
Definition save_dir : string :=
  "/disk/vanishing_data/du541/anomaly_scores/perceptual_difference".

(** [os.path.join(directory, name)], kept as its two components. *)
Definition path_join (directory name : string) : string * string :=
  (directory, name).

(** [m.unsqueeze(0).unsqueeze(0)] on a map. *)
Definition unsqueeze2 (m : Map2) : Tensor :=
  mkTensor 1 1 (length m) (length (default [] (head m)))
    (λ _ _ h w, default 0 (map_at m h w)).

(** The shape of [t.squeeze()]: every dimension of size 1 is dropped. *)
Definition squeeze (t : Tensor) : list nat :=
  filter (λ d, d ≠ 1%nat) [size_n t; size_c t; size_h t; size_w t].

(** [plt.imshow] draws a 2-D array of scalars or a 3-D array of RGB or
    RGBA values, and refuses image data of any other shape. *)
Definition imshow (shape : list nat) : result unit :=
  match shape with
  | [_; _] => Ok ()
  | [_; _; channels] =>
      if decide (channels = 3 ∨ channels = 4)%nat then Ok ()
      else Raise TypeError
  | _ => Raise TypeError
  end.

Section Script.
(** What the script takes from its libraries and is not in its text:
    the PNG decoder with the conversion to RGB, PIL's resampling
    filter, the pretrained network in features-only mode, and the
    rendering of the resized map as PNG bytes. *)
Variable decode : list byte → option Image.
Variable resample : Image → nat → nat → nat → nat → nat → byte.
Variable resnet18 : Tensor → list Tensor.
Variable render : Tensor → list byte.

(** [Image.open(path).convert('RGB')]. *)
Definition Image_open (path : string * string) : IO Image := λ fs,
  match files fs !! path with
  | None => (Raise FileNotFoundError, fs)
  | Some data =>
      match decode data with
      | Some img => (Ok img, fs)
      | None => (Raise UnidentifiedImageError, fs)
      end
  end.

(** [plt.savefig(path, ...)]: the file is created in its directory,
    which has to exist. *)
Definition savefig (path : string * string) (data : list byte) : IO unit :=
  λ fs,
    if decide (path.1 ∈ directories fs)
    then (Ok (), mkFS (directories fs) (<[path := data]> (files fs)))
    else (Raise FileNotFoundError, fs).

(** Lines 20-147 of the loop body: everything up to the rendered
    figure.  The resized map is squeezed before it is drawn (line 121),
    so an image one pixel high or wide leaves no 2-D array to draw and
    [plt.imshow] raises. *)
Definition heatmap (frame_number : nat) : IO (list byte) :=
  input_image ← Image_open
    (path_join input_dir ("frame_" +:+ pretty frame_number +:+ ".png"));
  synthesized_image ← Image_open
    (path_join synthesized_dir ("frame_" +:+ pretty frame_number +:+ ".png"));
  input_image_tensor ← lift (image_tensor resample input_image);
  synthesized_image_tensor ← lift (image_tensor resample synthesized_image);
  let feature_maps_input := resnet18 input_image_tensor in
  let feature_maps_synthesized := resnet18 synthesized_image_tensor in
  pd ← lift (perceptual_difference_per_pixel feature_maps_input
               feature_maps_synthesized);
  perceptual_difference_resized ← lift
    (interpolate (unsqueeze2 pd)
                 (im_height input_image, im_width input_image));
  _ ← lift (imshow (squeeze perceptual_difference_resized));
  mret (render perceptual_difference_resized).

(** One iteration of the loop over the frames. *)
Definition process_frame (frame_number : nat) : IO unit :=
  data ← heatmap frame_number;
  savefig (path_join save_dir
             ("perceptual_difference_" +:+ pretty frame_number +:+ ".png"))
          data.

(** [for frame_number in range(1, 1851)]; an exception ends the run. *)
Definition main : IO unit :=
  for_each (λ _ frame_number, process_frame frame_number) ()
           (seq 1 1850).
End Script.

(** ** Worked inputs *)

(** A layer whose entries grow linearly with the flat index, scaled by [k]. *)
Definition ramp (c h w : nat) (k : Z) : Tensor :=
  mkTensor 1 c h w
    (λ _ ci hi wi, Qc_of_Z (k * Z.of_nat (ci * h * w + hi * w + wi))).

Definition demo_input : list Tensor := [ramp 2 2 2 1; ramp 3 1 1 2].
Definition demo_synthesized : list Tensor := [ramp 2 2 2 3; ramp 3 1 1 (-1)].

(** All samples of channel 0 of a resized layer, row by row. *)
Definition samples (t : Tensor) (height width : nat) : Map2 :=
  (λ h, (λ w, bilinear_at t height width 0 0 h w) <$> range width)
    <$> range height.

(** [torch.full]-like layer: every entry is [v]. *)
Definition full (c h w : nat) (v : Z) : Tensor :=
  mkTensor 1 c h w (λ _ _ _ _, Qc_of_Z v).

Definition two_layers : list Tensor := [full 1 1 1 1; full 1 1 1 10].
Definition one_layer : list Tensor := [full 1 1 1 3].
Definition one_channel : list Tensor := [full 1 1 1 1].
Definition two_channels : list Tensor := [full 2 1 1 1].
Definition three_channels : list Tensor := [full 3 1 1 3].

(** A 2x2 layer with the entries 0, 1, 2, 3, and a 1x1 layer with the
    entry 5. *)
Definition ramp_2x2 : list Tensor := [ramp 1 2 2 1].
Definition five_1x1 : list Tensor := [full 1 1 1 5].

(** A reference layer without pixels. *)
Definition no_pixels : list Tensor := [full 1 0 0 0].

(** A file system that holds the first pair of frames and their
    directories, but not the output directory. *)
Definition frames_only : FileSystem :=
  mkFS {[ input_dir; synthesized_dir ]}
       {[ (input_dir, "frame_1.png"%string) := [];
          (synthesized_dir, "frame_1.png"%string) := [] ]}.

Definition black_pixel : Image := mkImage 1 1 (λ _ _ _, "000"%byte).
Definition black_square : Image := mkImage 2 2 (λ _ _ _, "000"%byte).

(** ** Further notions used to describe the aggregation *)

(** A layer that can be resized and has a batch entry 0. *)
Definition usable_layer (t : Tensor) : Prop :=
  (0 < size_n t ∧ 0 < size_c t ∧ 0 < size_h t ∧ 0 < size_w t)%nat.

(** A layer pair the layer loop gets through: both layers usable, and
    channel counts that broadcast. *)
Definition pair_ok (a b : Tensor) : Prop :=
  usable_layer a ∧ usable_layer b
  ∧ (size_c a = size_c b ∨ size_c a = 1%nat ∨ size_c b = 1%nat).

(** Two layers of one shape that agree on batch entry 0. *)
Definition same_batch0 (a a' : Tensor) : Prop :=
  ((0 < size_n a)%nat ↔ (0 < size_n a')%nat)
  ∧ size_c a = size_c a' ∧ size_h a = size_h a' ∧ size_w a = size_w a'
  ∧ ∀ c h w, item a 0 c h w = item a' 0 c h w.



(** The mean over the channels of the absolute difference of the raw
    entries of two layers at one position. *)
Definition raw_score (a b : Tensor) (h w : nat) : Qc :=
  Qcsum ((λ c, Qcabs (item a 0 c h w - item b 0 c h w)) <$> seq 0 (size_c a))
  / Qc_of_nat (size_c a).

(** The sum over the channels of [b] of the absolute difference to the
    single channel of [a], both resized; no division. *)
Definition broadcast_score (a b : Tensor) (height width h w : nat) : Qc :=
  Qcsum ((λ c, Qcabs (bilinear_at a height width 0 0 h w
                      - bilinear_at b height width 0 c h w))
           <$> seq 0 (size_c b)).

(** A table of values over a shape. *)
Definition table (height width : nat) (f : nat → nat → Qc) : Map2 :=
  (λ h, (λ w, f h w) <$> range width) <$> range height.

(** ** The files of a frame, and the loop over any list of frames *)

(** The three paths of frame [n] (lines 20, 21 and 151). *)
Definition input_path (n : nat) : string * string :=
  path_join input_dir ("frame_" +:+ pretty n +:+ ".png").
Definition synthesized_path (n : nat) : string * string :=
  path_join synthesized_dir ("frame_" +:+ pretty n +:+ ".png").
Definition output_path (n : nat) : string * string :=
  path_join save_dir ("perceptual_difference_" +:+ pretty n +:+ ".png").

Section Frames.
Variable decode : list byte → option Image.
Variable resample : Image → nat → nat → nat → nat → nat → byte.
Variable resnet18 : Tensor → list Tensor.
Variable render : Tensor → list byte.

(** Why a file cannot be loaded as an image, if it cannot. *)
Definition file_error (fs : FileSystem) (path : string * string)
  : option exn :=
  match files fs !! path with
  | None => Some FileNotFoundError
  | Some data => if decode data is Some _ then None
                 else Some UnidentifiedImageError
  end.

(** The first of the two files of frame [n] that cannot be loaded, the
    input frame before the synthesized one. *)
Definition load_error (fs : FileSystem) (n : nat) : option exn :=
  match file_error fs (input_path n) with
  | Some e => Some e
  | None => file_error fs (synthesized_path n)
  end.

(** The loop of the script over the frame numbers [frames]; the script
    itself runs it over [range(1, 1851)]. *)
Definition run_frames (frames : list nat) : IO unit :=
  for_each (λ _ frame_number,
              process_frame decode resample resnet18 render frame_number)
           () frames.
End Frames.

(** A file system with the output directory and the first two pairs of
    frames. *)
Definition two_frames : FileSystem :=
  mkFS {[ input_dir; synthesized_dir; save_dir ]}
       {[ input_path 1 := []; synthesized_path 1 := [];
          input_path 2 := []; synthesized_path 2 := [] ]}.

(** Stand-ins for the library parts of the script on small data: every
    file decodes to a black pixel, the network returns one 1x1 layer,
    the renderer returns no bytes. *)
Definition decode_black : list byte → option Image :=
  λ _, Some black_square.
Definition decode_pixel : list byte → option Image := λ _, Some black_pixel.
Definition resample_black : Image → nat → nat → nat → nat → nat → byte :=
  λ _ _ _ _ _ _, "000"%byte.
Definition tiny_network : Tensor → list Tensor := λ _, full 1 1 1 0 :: nil.
Definition no_bytes : Tensor → list byte := λ _, [].

(** A file system with the output directory and the first pair of
    frames only. *)
Definition first_frame_only : FileSystem :=
  mkFS {[ input_dir; synthesized_dir; save_dir ]}
       {[ input_path 1 := []; synthesized_path 1 := [] ]}.

(** [first_frame_only] after the figure of frame 1 was saved. *)
Definition first_frame_saved : FileSystem :=
  mkFS (directories first_frame_only)
       (<[output_path 1 := []]> (files first_frame_only)).

(** ** [plot_all_feature_maps] (lines 56-84) *)

(** The function prints, so its state is the file system together with
    the lines written to standard output. *)
Record World : Type := mkWorld {
  world_fs : FileSystem;
  stdout : list string
}.

Definition Console (A : Type) : Type := World → result A * World.

#[global] Instance Console_ret : MRet Console := λ A a w, (Ok a, w).
#[global] Instance Console_bind : MBind Console := λ A B f m w,
  match m w with
  | (Ok a, w') => f a w'
  | (Raise e, w') => (Raise e, w')
  end.

(** [print(line)]. *)
Definition print (line : string) : Console unit := λ w,
  (Ok (), mkWorld (world_fs w) (stdout w ++ [line])).

(** A computation on files, run in a world. *)
Definition lift_io {A} (m : IO A) : Console A := λ w,
  let '(r, fs') := m (world_fs w) in (r, mkWorld fs' (stdout w)).

(** A computation without effects. *)
Definition lift_result {A} (r : result A) : Console A := λ w, (r, w).

(** [os.path.join(a, b)] on POSIX paths. *)
Definition starts_with_sep (s : string) : bool :=
  match s with
  | String c _ => bool_decide (c = "/"%char)
  | EmptyString => false
  end.

Fixpoint ends_with_sep (s : string) : bool :=
  match s with
  | EmptyString => false
  | String c EmptyString => bool_decide (c = "/"%char)
  | String _ s' => ends_with_sep s'
  end.

Definition os_path_join (a b : string) : string :=
  if starts_with_sep b then b
  else if bool_decide (a = EmptyString) || ends_with_sep a then a +:+ b
  else a +:+ "/" +:+ b.

(** The grid of line 63 and 64: [int(n ** 0.5)] rows and
    [int(n / rows)] columns, taken as the integer square root and the
    integer quotient; the division raises on no rows. *)
Definition grid (num_feature_maps : nat) : result (nat * nat) :=
  let rows := Nat.sqrt num_feature_maps in
  if decide (rows = 0%nat) then Raise ZeroDivisionError
  else Ok (rows, num_feature_maps / rows)%nat.

(** [plt.subplots(rows, cols)] followed by [axs.flat]: the indices of
    the axes in row-major order.  A grid needs a row and a column, and
    for a single subplot [axs] is one Axes object, which has no [flat]. *)
Definition axes_flat (rows cols : nat) : result (list nat) :=
  if decide (rows = 0 ∨ cols = 0)%nat then Raise ValueError
  else if decide (rows = 1 ∧ cols = 1)%nat then Raise AttributeError
  else Ok (seq 0 (rows * cols)).

(** [t[n, c]]: one channel of one batch entry, as a 2-D array. *)
Definition select_plane (t : Tensor) (n c : nat) : result Map2 :=
  if decide (n < size_n t ∧ c < size_c t)%nat
  then Ok (table (size_h t) (size_w t) (λ h w, item t n c h w))
  else Raise IndexError.

(** The loop of lines 67-71: what each axes of the figure shows. *)
Definition draw_axes (feature_map_layer : Tensor) (num_feature_maps : nat)
    (axes : list nat) : result (list (option Map2)) :=
  mapM (λ i,
          if decide (i < num_feature_maps)%nat
          then plane ← select_plane feature_map_layer 0 i;
               _ ← imshow [size_h feature_map_layer; size_w feature_map_layer];
               Ok (Some plane)
          else Ok None)
       axes.

Section PlotAllFeatureMaps.
(** What the function takes from its libraries: the directories
    [os.makedirs] has to create above a directory, and the rendering of
    a titled grid of axes as PNG bytes. *)
Variable parents : string → list string.
Variable render_grid : string → nat → nat → list (option Map2) → list byte.

(** [os.makedirs(directory, exist_ok=True)]. *)
Definition makedirs (directory : string) : IO unit := λ fs,
  (Ok (), mkFS (directories fs ∪ list_to_set (parents directory)
                ∪ {[ directory ]})
               (files fs)).

(** The body of the loop over the layers. *)
Definition plot_layer (title folder : string) (layer_index : nat)
    (feature_map_layer : Tensor) : Console unit :=
  let num_feature_maps := size_c feature_map_layer in
  _ ← print ("Layer " +:+ pretty layer_index +:+ ": "
             +:+ pretty num_feature_maps +:+ " feature maps");
  '(rows, cols) ← lift_result (grid num_feature_maps);
  axes ← lift_result (axes_flat rows cols);
  shown ← lift_result (draw_axes feature_map_layer num_feature_maps axes);
  let save_folder :=
    os_path_join (os_path_join folder title)
                 ("Layer_" +:+ pretty layer_index) in
  _ ← lift_io (makedirs save_folder);
  let save_path :=
    path_join save_folder
      ("feature_maps_layer_" +:+ pretty layer_index +:+ ".png") in
  lift_io (savefig save_path
             (render_grid (title +:+ " - Layer " +:+ pretty layer_index)
                          rows cols shown)).

(** [for layer_index, feature_map_layer in enumerate(feature_maps)]. *)
Definition plot_all_feature_maps (feature_maps : list Tensor)
    (title folder : string) : Console unit :=
  for_each (λ _ '(layer_index, feature_map_layer),
              plot_layer title folder layer_index feature_map_layer)
           () (imap (λ i t, (i, t)) feature_maps).



Definition layer_line (layer_index : nat) (t : Tensor) : string :=
  "Layer " +:+ pretty layer_index +:+ ": " +:+ pretty (size_c t)
  +:+ " feature maps".


End PlotAllFeatureMaps.

(** Stand-ins for the library parts of [plot_all_feature_maps]. *)
Definition no_parents : string → list string := λ _, [].
Definition blank_figure
  : string → nat → nat → list (option Map2) → list byte := λ _ _ _ _, [].
Definition empty_world : World := mkWorld (mkFS ∅ ∅) [].


(** * Properties *)

(** ** Tactics *)

Ltac result_simpl := cbn [mbind result_bind mret result_ret].

Ltac Qc_compute :=
  vm_compute;
  repeat first [reflexivity | apply Qc_is_canon; reflexivity | progress f_equal].

(** Closes [x = y] by evaluating both sides, without writing their
    normal forms into the proof. *)
Ltac eval_eq :=
  match goal with |- _ = ?y => vm_cast_no_check (eq_refl y) end.

Ltac solve_valid :=
  split; [discriminate | repeat constructor; cbn; lia].

(** ** The error monad and the loops *)

Lemma bind_Ok {A B} (f : A → result B) (a : A) : (Ok a ≫= f) = f a.
Proof. reflexivity. Qed.

Lemma bind_Raise {A B} (f : A → result B) (e : exn) :
  (Raise e ≫= f) = Raise e.
Proof. reflexivity. Qed.

(** A body that never raises on the elements of the list turns [mapM]
    into [fmap]. *)
Lemma mapM_Ok {A B} (f : A → result B) (g : A → B) (xs : list A) :
  (∀ x, x ∈ xs → f x = Ok (g x)) → mapM f xs = Ok (g <$> xs).
Proof.
  induction xs as [|x xs IH]; intros Hf; [reflexivity|].
  cbn [mapM]. rewrite Hf by left. rewrite bind_Ok.
  rewrite IH by (intros y Hy; apply Hf; by right).
  reflexivity.
Qed.

Lemma mapM_ext_in {A B} (f g : A → result B) (xs : list A) :
  (∀ x, x ∈ xs → f x = g x) → mapM f xs = mapM g xs.
Proof.
  induction xs as [|x xs IH]; intros Hf; [reflexivity|].
  cbn [mapM]. rewrite Hf by left.
  rewrite IH by (intros y Hy; apply Hf; by right).
  reflexivity.
Qed.

Lemma setitem2_Ok (m : Map2) (h w : nat) (v : Qc) (row : list Qc) :
  m !! h = Some row → (w < length row)%nat →
  setitem2 m h w v = Ok (<[h := <[w := v]> row]> m).
Proof.
  intros Hrow Hw. unfold setitem2. rewrite Hrow. by rewrite decide_True.
Qed.

(** The column loop writes, cell after cell, the values [f w] into row
    [h]: it raises where [mapM f] does, and otherwise replaces the part of
    the row it walked over. *)
Lemma column_loop (f : nat → result Qc) (h : nat) :
  ∀ (todo done : list Qc) (pd : Map2),
    pd !! h = Some (done ++ todo) →
    for_each (λ pd w, v ← f w; setitem2 pd h w v) pd
             (seq (length done) (length todo))
    = vs ← mapM f (seq (length done) (length todo));
      Ok (<[h := done ++ vs]> pd).
Proof.
  induction todo as [|t todo IH]; intros done pd Hrow.
  - change (Ok pd = Ok (<[h := done ++ []]> pd)).
    rewrite app_nil_r in Hrow |- *. by rewrite list_insert_id.
  - cbn [length seq for_each mapM].
    destruct (f (length done)) as [v|e]; [|reflexivity].
    rewrite !bind_Ok.
    rewrite (setitem2_Ok pd h (length done) v _ Hrow)
      by (rewrite length_app; cbn; lia).
    rewrite bind_Ok.
    assert (Hins : <[length done := v]> (done ++ t :: todo)
                   = (done ++ [v]) ++ todo).
    { rewrite insert_app_r_alt by lia. rewrite Nat.sub_diag. cbn.
      by rewrite <- app_assoc. }
    rewrite Hins.
    specialize (IH (done ++ [v]) (<[h := (done ++ [v]) ++ todo]> pd)).
    rewrite length_app in IH. cbn [length] in IH.
    rewrite Nat.add_1_r in IH. rewrite IH.
    + destruct (mapM f (seq (S (length done)) (length todo))) as [vs|e];
        [|reflexivity].
      result_simpl. rewrite list_insert_insert_eq. by rewrite <- app_assoc.
    + apply list_lookup_insert_eq. by eapply lookup_lt_Some.
Qed.

(** The row loop over a map whose remaining rows have the right width
    builds the table of the values [f h w], row by row. *)
Lemma row_loop (f : nat → nat → result Qc) (width : nat) :
  ∀ (todo done : Map2),
    Forall (λ row, length row = width) todo →
    for_each (λ pd h,
        for_each (λ pd w, v ← f h w; setitem2 pd h w v) pd (range width))
      (done ++ todo) (seq (length done) (length todo))
    = rows ← mapM (λ h, mapM (f h) (range width))
                  (seq (length done) (length todo));
      Ok (done ++ rows).
Proof.
  unfold range.
  induction todo as [|row todo IH]; intros done Hw.
  - reflexivity.
  - apply Forall_cons in Hw as [Hrow Hw].
    cbn [length seq for_each mapM].
    pose proof (column_loop (f (length done)) (length done) row []
                  (done ++ row :: todo)) as Hcol.
    cbn [length app] in Hcol. rewrite Hrow in Hcol. rewrite Hcol.
    2:{ by rewrite list_lookup_middle. }
    destruct (mapM (f (length done)) (seq 0 width)) as [vs|e];
      [|reflexivity].
    rewrite !bind_Ok.
    rewrite insert_app_r_alt by lia. rewrite Nat.sub_diag. cbn [insert list_insert].
    specialize (IH (done ++ [vs]) Hw).
    rewrite length_app in IH. cbn [length] in IH. rewrite Nat.add_1_r in IH.
    rewrite <- app_assoc in IH. cbn [app] in IH. rewrite IH.
    destruct (mapM _ (seq (S (length done)) (length todo))) as [rows|e];
      [|reflexivity].
    result_simpl. by rewrite <- app_assoc.
Qed.

(** The aggregation is the table of the per-pixel layer loops, in
    row-major order, over the shape of layer 0 of the first sequence. *)
Lemma perceptual_difference_per_pixel_table (A B : list Tensor) :
  perceptual_difference_per_pixel A B
  = fm0 ← getitem A 0;
    mapM (λ h, mapM (λ w, perceptual_difference A B (size_h fm0) (size_w fm0) h w)
                    (range (size_w fm0)))
         (range (size_h fm0)).
Proof.
  unfold perceptual_difference_per_pixel.
  destruct (getitem A 0) as [fm0|e]; [|reflexivity].
  rewrite !bind_Ok. cbv zeta.
  pose proof (row_loop
    (λ h w, perceptual_difference A B (size_h fm0) (size_w fm0) h w)
    (size_w fm0) (zeros (size_h fm0) (size_w fm0)) []) as Hloop.
  cbn [app length] in Hloop. unfold zeros in Hloop |- *.
  rewrite length_replicate in Hloop. unfold range in Hloop |- *.
  rewrite Hloop.
  - destruct (mapM _ (seq 0 (size_h fm0))); reflexivity.
  - apply Forall_replicate, length_replicate.
Qed.

(** ** The resize on small inputs *)

(** The 2x2 layer [[0, 1], [2, 3]] enlarged to 4x4: border samples are
    clamped, inner samples are weighted by 1/4 and 3/4. *)
Example upsample_2x2 :
  samples (ramp 1 2 2 1) 4 4
  = [ [Q2Qc 0; Q2Qc (1 # 4); Q2Qc (3 # 4); Q2Qc 1];
      [Q2Qc (1 # 2); Q2Qc (3 # 4); Q2Qc (5 # 4); Q2Qc (3 # 2)];
      [Q2Qc (3 # 2); Q2Qc (7 # 4); Q2Qc (9 # 4); Q2Qc (5 # 2)];
      [Q2Qc 2; Q2Qc (9 # 4); Q2Qc (11 # 4); Q2Qc 3] ].
Proof. Qc_compute. Qed.

(** The 1x4 layer [[0, 1, 2, 3]] reduced to 1x2: each sample is the mean
    of two neighbours. *)
Example downsample_1x4 :
  samples (ramp 1 1 4 1) 1 2 = [Q2Qc (1 # 2); Q2Qc (5 # 2)] :: nil.
Proof. Qc_compute. Qed.

(** A resize to the layer's own size copies it. *)
Lemma bilinear_at_same_size (t : Tensor) (n c h w : nat) :
  bilinear_at t (size_h t) (size_w t) n c h w = item t n c h w.
Proof.
  unfold bilinear_at, compute_source_index_and_lambda.
  rewrite !decide_True by done. ring.
Qed.

(** ** The layer loop on inputs that satisfy the invariant *)

Lemma interpolate_Ok (t : Tensor) (height width : nat) :
  (0 < size_c t)%nat → (0 < size_h t)%nat → (0 < size_w t)%nat →
  (0 < height)%nat → (0 < width)%nat →
  interpolate t (height, width)
  = Ok (mkTensor (size_n t) (size_c t) height width
                 (bilinear_at t height width)).
Proof. intros. unfold interpolate. by rewrite decide_True. Qed.

Lemma select_channels_Ok (t : Tensor) (n h w : nat) :
  (n < size_n t)%nat → (h < size_h t)%nat → (w < size_w t)%nat →
  select_channels t n h w = Ok ((λ c, item t n c h w) <$> seq 0 (size_c t)).
Proof. intros. unfold select_channels. by rewrite decide_True. Qed.

Lemma l1_loss_sum_fmap {I} (f g : I → Qc) (cs : list I) :
  l1_loss_sum (f <$> cs) (g <$> cs)
  = Ok (Qcsum ((λ c, Qcabs (f c - g c)) <$> cs)).
Proof.
  unfold l1_loss_sum, broadcast_tensors.
  rewrite decide_True by (by rewrite !length_fmap).
  result_simpl.
  by rewrite zip_with_fmap_l, zip_with_fmap_r, zip_with_diag.
Qed.

Lemma pixel_difference_Ok (a b : Tensor) (height width h w : nat) :
  nonempty_layer a → nonempty_layer b → size_c a = size_c b →
  (h < height)%nat → (w < width)%nat →
  pixel_difference height width h w a b
  = Ok (layer_score a b height width h w).
Proof.
  intros (Han & Hac & Hah & Haw) (Hbn & Hbc & Hbh & Hbw) Hc Hh Hw.
  unfold pixel_difference.
  rewrite !interpolate_Ok by lia. result_simpl.
  rewrite !select_channels_Ok by (cbn; lia). result_simpl.
  cbn [size_c item]. rewrite <- Hc.
  rewrite (l1_loss_sum_fmap (λ c, bilinear_at a height width 0 c h w)
                            (λ c, bilinear_at b height width 0 c h w)).
  reflexivity.
Qed.

(** Pairing by [zip] and indexing by layer number agree on sequences of
    the same length. *)
Lemma foldl_zip_index (g : Tensor → Tensor → Qc) :
  ∀ (A B : list Tensor) (acc : Qc),
    length A = length B →
    foldl (λ acc '(a, b), acc + g a b) acc (zip_ A B)
    = foldl (λ acc l, acc + g (A !!! l) (B !!! l)) acc (seq 0 (length A)).
Proof.
  induction A as [|a A IH]; intros [|b B] acc Hlen; try discriminate;
    [reflexivity|].
  cbn [zip_ length seq foldl]. rewrite <- fmap_S_seq, foldl_fmap.
  rewrite IH by (cbn in Hlen; lia). reflexivity.
Qed.

Lemma perceptual_difference_fold (A B : list Tensor) (height width h w : nat) :
  layer_invariant A B → (h < height)%nat → (w < width)%nat →
  ∀ acc,
    for_each (λ acc '(fm_input, fm_synthesized),
                d ← pixel_difference height width h w fm_input fm_synthesized;
                Ok (acc + d))
             acc (zip_ A B)
    = Ok (foldl (λ acc '(a, b), acc + layer_score a b height width h w)
                acc (zip_ A B)).
Proof.
  intros Hinv Hh Hw. induction Hinv as [|a b A B (Ha & Hb & Hc) _ IH];
    intros acc; [reflexivity|].
  cbn [zip_ for_each foldl].
  rewrite pixel_difference_Ok by assumption. result_simpl. apply IH.
Qed.

Lemma perceptual_difference_Ok (A B : list Tensor) (height width h w : nat) :
  layer_invariant A B → (h < height)%nat → (w < width)%nat →
  perceptual_difference A B height width h w
  = Ok (aggregate_score A B height width h w).
Proof.
  intros Hinv Hh Hw. unfold perceptual_difference, aggregate_score.
  rewrite perceptual_difference_fold by assumption.
  rewrite (foldl_zip_index (λ a b, layer_score a b height width h w));
    [reflexivity|].
  by eapply Forall2_length.
Qed.

(** On valid inputs the aggregation returns the table of the aggregate
    scores over the shape of layer 0 of the first sequence. *)
Lemma perceptual_difference_per_pixel_valid (A B : list Tensor) :
  valid_inputs A B →
  perceptual_difference_per_pixel A B
  = Ok (score_table A B (ref_shape A).1 (ref_shape A).2).
Proof.
  intros [Hne Hinv]. rewrite perceptual_difference_per_pixel_table.
  destruct A as [|fm0 A]; [done|]. cbn [getitem lookup list_lookup ref_shape fst snd].
  result_simpl. unfold score_table.
  apply mapM_Ok. intros h Hh%elem_of_seq.
  apply mapM_Ok. intros w Hw%elem_of_seq.
  apply perceptual_difference_Ok; [assumption|lia..].
Qed.

(** ** The aggregate score *)

Lemma Qcsum_nonneg (xs : list Qc) : Forall (λ x, 0 ≤ x) xs → 0 ≤ Qcsum xs.
Proof.
  induction 1 as [|x xs Hx _ IH]; [done|].
  change (0 ≤ x + Qcsum xs). by apply Qcplus_nonneg_nonneg.
Qed.

Lemma Qcsum_zero (xs : list Qc) : Forall (λ x, x = 0) xs → Qcsum xs = 0.
Proof.
  induction 1 as [|x xs Hx _ IH]; [done|].
  change (x + Qcsum xs = 0). rewrite Hx, IH. ring.
Qed.

Lemma Qc_of_nat_nonneg (n : nat) : 0 ≤ Qc_of_nat n.
Proof.
  unfold Qc_of_nat, Qc_of_Z, Qcle. change (this (Q2Qc 0)) with 0%Q.
  unfold Qle. cbn. lia.
Qed.

Lemma Qcdiv_nonneg (x y : Qc) : 0 ≤ x → 0 ≤ y → 0 ≤ x / y.
Proof.
  intros Hx Hy. unfold Qcdiv.
  destruct (decide (y = 0)) as [->|Hne].
  - replace (/ 0) with (Q2Qc 0) by (by apply Qc_is_canon).
    by rewrite Qcmult_0_r.
  - apply Qcmult_nonneg_nonneg; [done|].
    apply Qclt_le_weak, Qcinv_pos.
    destruct (Qcle_lt_or_eq _ _ Hy) as [?|Heq]; [done|]. by destruct Hne.
Qed.

Lemma layer_score_nonneg (a b : Tensor) (height width h w : nat) :
  0 ≤ layer_score a b height width h w.
Proof.
  unfold layer_score. apply Qcdiv_nonneg; [|apply Qc_of_nat_nonneg].
  apply Qcsum_nonneg, Forall_fmap, Forall_forall. intros c _. cbn.
  apply Qcabs_nonneg.
Qed.

Lemma layer_score_sym (a b : Tensor) (height width h w : nat) :
  size_c a = size_c b →
  layer_score a b height width h w = layer_score b a height width h w.
Proof.
  intros Hc. unfold layer_score. rewrite Hc. f_equal. f_equal.
  apply list_fmap_ext. intros _ c _. apply Qcabs_Qcminus.
Qed.

Lemma layer_score_diag (a : Tensor) (height width h w : nat) :
  layer_score a a height width h w = 0.
Proof.
  unfold layer_score. rewrite Qcsum_zero.
  - unfold Qcdiv. apply Qcmult_0_l.
  - apply Forall_fmap, Forall_forall. intros c _. cbn.
    replace (bilinear_at a height width 0 c h w
             - bilinear_at a height width 0 c h w) with (Q2Qc 0) by ring.
    by apply Qcabs_pos.
Qed.

Lemma aggregate_score_nonneg (A B : list Tensor) (height width h w : nat) :
  0 ≤ aggregate_score A B height width h w.
Proof.
  unfold aggregate_score.
  assert (Hgen : ∀ (ls : list nat) (acc : Qc), 0 ≤ acc →
    0 ≤ foldl (λ acc l, acc + layer_score (A !!! l) (B !!! l) height width h w)
              acc ls).
  { induction ls as [|l ls IH]; intros acc Hacc; [done|].
    cbn. apply IH, Qcplus_nonneg_nonneg; [done|apply layer_score_nonneg]. }
  by apply Hgen.
Qed.

Lemma aggregate_score_sym (A B : list Tensor) (height width h w : nat) :
  layer_invariant A B →
  aggregate_score A B height width h w = aggregate_score B A height width h w.
Proof.
  intros Hinv. unfold aggregate_score.
  pose proof (Forall2_length _ _ _ Hinv) as Hlen.
  rewrite <- !(foldl_zip_index (λ a b, layer_score a b height width h w))
    by done.
  generalize (Q2Qc 0).
  induction Hinv as [|a b A B (_ & _ & Hc) _ IH]; intros acc; [reflexivity|].
  cbn [zip_ foldl]. rewrite (layer_score_sym a b) by done.
  apply IH. cbn in Hlen. lia.
Qed.

Lemma aggregate_score_diag (A : list Tensor) (height width h w : nat) :
  aggregate_score A A height width h w = 0.
Proof.
  unfold aggregate_score. generalize (seq 0 (length A)).
  induction l as [|l ls IH]; [reflexivity|].
  cbn. rewrite layer_score_diag, Qcplus_0_r. apply IH.
Qed.

(** ** The table of scores *)

Lemma score_table_lookup (A B : list Tensor) (height width h w : nat) :
  (h < height)%nat → (w < width)%nat →
  map_at (score_table A B height width) h w
  = Some (aggregate_score A B height width h w).
Proof.
  intros Hh Hw. unfold map_at, score_table, range.
  rewrite list_lookup_fmap, lookup_seq_lt by done. cbn.
  by rewrite list_lookup_fmap, lookup_seq_lt.
Qed.

Lemma score_table_shape (A B : list Tensor) (height width : nat) :
  map_shape (score_table A B height width) height width.
Proof.
  unfold map_shape, score_table, range. split.
  - by rewrite length_fmap, length_seq.
  - apply Forall_fmap, Forall_forall. intros h _. cbn.
    by rewrite length_fmap, length_seq.
Qed.

Lemma map_at_Some (m : Map2) (height width h w : nat) (v : Qc) :
  map_shape m height width → map_at m h w = Some v →
  (h < height)%nat ∧ (w < width)%nat.
Proof.
  intros [Hlen Hrows]. unfold map_at. intros Hv.
  destruct (m !! h) as [row|] eqn:Hrow; [|done]. cbn in Hv.
  split.
  - rewrite <- Hlen. by eapply lookup_lt_Some.
  - rewrite Forall_forall in Hrows.
    rewrite <- (Hrows row) by (by eapply list_elem_of_lookup_2).
    by eapply lookup_lt_Some.
Qed.

(** ** The hoisted aggregation *)

Lemma perceptual_difference_per_pixel_hoisted_table (A B : list Tensor) :
  perceptual_difference_per_pixel_hoisted A B
  = fm0 ← getitem A 0;
    resized ← resize_layers A B (size_h fm0) (size_w fm0);
    mapM (λ h, mapM (λ w, perceptual_difference_hoisted resized h w)
                    (range (size_w fm0)))
         (range (size_h fm0)).
Proof.
  unfold perceptual_difference_per_pixel_hoisted.
  destruct (getitem A 0) as [fm0|e]; [|reflexivity].
  rewrite !bind_Ok. cbv zeta.
  destruct (resize_layers A B (size_h fm0) (size_w fm0)) as [resized|e];
    [|reflexivity].
  rewrite !bind_Ok.
  pose proof (row_loop (λ h w, perceptual_difference_hoisted resized h w)
    (size_w fm0) (zeros (size_h fm0) (size_w fm0)) []) as Hloop.
  cbn [app length] in Hloop. unfold zeros in Hloop |- *.
  rewrite length_replicate in Hloop. unfold range in Hloop |- *.
  rewrite Hloop.
  - destruct (mapM _ (seq 0 (size_h fm0))); reflexivity.
  - apply Forall_replicate, length_replicate.
Qed.

(** Once every resize has succeeded, the layer loop over the resized
    layers computes what the layer loop that resizes in place computes. *)
Lemma perceptual_difference_hoisted_eq (height width h w : nat) :
  ∀ (A B : list Tensor) (resized : list (Tensor * Tensor)),
    resize_layers A B height width = Ok resized →
    perceptual_difference_hoisted resized h w
    = perceptual_difference A B height width h w.
Proof.
  intros A B. unfold perceptual_difference_hoisted, perceptual_difference,
    resize_layers.
  generalize (Q2Qc 0). generalize (zip_ A B). clear A B.
  induction l as [|[a b] l IH]; intros acc resized Hres.
  - cbn in Hres. by injection Hres as <-.
  - cbn [mapM] in Hres. cbn [for_each]. unfold pixel_difference.
    destruct (interpolate a (height, width)) as [a'|e]; [|done].
    destruct (interpolate b (height, width)) as [b'|e]; [|done].
    rewrite !bind_Ok in Hres.
    destruct (mapM _ l) as [rest|e] eqn:Hrest; [|done].
    cbn in Hres. injection Hres as <-.
    cbn [for_each]. result_simpl.
    destruct (select_channels a' 0 h w) as [x|e]; [|reflexivity].
    result_simpl.
    destruct (select_channels b' 0 h w) as [y|e]; [|reflexivity].
    result_simpl.
    destruct (l1_loss_sum x y) as [loss|e]; [|reflexivity].
    result_simpl. by apply IH.
Qed.

Lemma resize_layers_Ok (A B : list Tensor) (height width : nat) :
  layer_invariant A B → (0 < height)%nat → (0 < width)%nat →
  ∃ resized, resize_layers A B height width = Ok resized.
Proof.
  intros Hinv Hh Hw. unfold resize_layers.
  induction Hinv as [|a b A B (Ha & Hb & Hc) _ [rest IH]]; [by eexists|].
  destruct Ha as (_ & ? & ? & ?), Hb as (_ & ? & ? & ?).
  cbn [zip_ mapM]. rewrite !interpolate_Ok by done. rewrite !bind_Ok, IH.
  by eexists.
Qed.

Lemma valid_inputs_ref_shape (A B : list Tensor) :
  valid_inputs A B → (0 < (ref_shape A).1)%nat ∧ (0 < (ref_shape A).2)%nat.
Proof.
  intros [Hne Hinv]. destruct Hinv as [|a b A B (Ha & _) _]; [done|].
  destruct Ha as (_ & _ & ? & ?). by cbn.
Qed.

Lemma valid_inputs_sym (A B : list Tensor) :
  valid_inputs A B → valid_inputs B A.
Proof.
  intros [Hne Hinv]. split.
  - destruct Hinv; done.
  - apply Forall2_flip. eapply Forall2_impl; [exact Hinv|].
    cbn. intros a b (? & ? & ?). done.
Qed.

Lemma perceptual_difference_per_pixel_hoisted_valid (A B : list Tensor) :
  valid_inputs A B →
  perceptual_difference_per_pixel_hoisted A B
  = perceptual_difference_per_pixel A B.
Proof.
  intros Hvalid. pose proof (valid_inputs_ref_shape A B Hvalid) as [Hh Hw].
  destruct Hvalid as [Hne Hinv].
  rewrite perceptual_difference_per_pixel_hoisted_table,
    perceptual_difference_per_pixel_table.
  destruct A as [|fm0 A]; [done|]. cbn [getitem lookup list_lookup].
  cbn in Hh, Hw. rewrite !bind_Ok.
  destruct (resize_layers_Ok (fm0 :: A) B (size_h fm0) (size_w fm0))
    as [resized Hres]; [done..|].
  rewrite Hres, bind_Ok.
  apply mapM_ext_in. intros h _. apply mapM_ext_in. intros w _.
  by apply perceptual_difference_hoisted_eq.
Qed.

Example demo_map :
  perceptual_difference_per_pixel demo_input demo_synthesized
  = Ok [[Qc_of_Z 7; Qc_of_Z 9]; [Qc_of_Z 11; Qc_of_Z 13]].
Proof. Qc_compute. Qed.

Example demo_map_hoisted :
  perceptual_difference_per_pixel_hoisted demo_input demo_synthesized
  = Ok [[Qc_of_Z 7; Qc_of_Z 9]; [Qc_of_Z 11; Qc_of_Z 13]].
Proof. Qc_compute. Qed.

Example demo_valid : valid_inputs demo_input demo_synthesized.
Proof. solve_valid. Qed.

(** Beyond valid inputs: as soon as layer 0 of the first sequence has a
    pixel, the two aggregations return the same maps and raise on the
    same inputs. *)
Lemma pixel_difference_Ok_inv (a b : Tensor) (height width h w : nat)
    (d : Qc) :
  pixel_difference height width h w a b = Ok d →
  ∃ a' b', interpolate a (height, width) = Ok a'
           ∧ interpolate b (height, width) = Ok b'.
Proof.
  unfold pixel_difference. intros Hd.
  destruct (interpolate a (height, width)) as [a'|e]; [|done].
  destruct (interpolate b (height, width)) as [b'|e]; [|done].
  eexists; eexists; split; reflexivity.
Qed.

Lemma perceptual_difference_Ok_resize (A B : list Tensor)
    (height width h w : nat) (v : Qc) :
  perceptual_difference A B height width h w = Ok v →
  ∃ resized, resize_layers A B height width = Ok resized.
Proof.
  unfold perceptual_difference, resize_layers.
  generalize (Q2Qc 0). generalize (zip_ A B). clear A B.
  induction l as [|[a b] l IH]; intros acc Hv; [by eexists|].
  cbn [for_each] in Hv.
  destruct (pixel_difference height width h w a b) as [d|e] eqn:Hd; [|done].
  cbn [mbind result_bind] in Hv. destruct (IH _ Hv) as [rest Hrest].
  destruct (pixel_difference_Ok_inv _ _ _ _ _ _ _ Hd) as (a' & b' & Ha & Hb).
  cbn [mapM]. rewrite Ha, Hb. result_simpl. rewrite Hrest. by eexists.
Qed.

Lemma hoisted_agrees_on_nonempty_reference (A B : list Tensor) (m : Map2) :
  (0 < (ref_shape A).1)%nat → (0 < (ref_shape A).2)%nat →
  perceptual_difference_per_pixel_hoisted A B = Ok m
  ↔ perceptual_difference_per_pixel A B = Ok m.
Proof.
  intros Hh Hw.
  rewrite perceptual_difference_per_pixel_hoisted_table,
    perceptual_difference_per_pixel_table.
  destruct A as [|fm0 A]; [done|]. cbn [getitem lookup list_lookup].
  cbn in Hh, Hw. result_simpl.
  destruct (resize_layers (fm0 :: A) B (size_h fm0) (size_w fm0))
    as [resized|e] eqn:Hres; result_simpl.
  - erewrite mapM_ext_in; [reflexivity|].
    intros h _. apply mapM_ext_in. intros w _.
    by apply perceptual_difference_hoisted_eq.
  - split; [done|].
    destruct (size_h fm0) as [|height] eqn:Hheight; [lia|].
    destruct (size_w fm0) as [|width] eqn:Hwidth; [lia|].
    unfold range. cbn [seq mapM].
    destruct (perceptual_difference (fm0 :: A) B (S height) (S width) 0 0)
      as [v|e'] eqn:Hv; [|done].
    apply perceptual_difference_Ok_resize in Hv as [resized Hv].
    congruence.
Qed.

(** On a reference layer without pixels they differ: the pixel loops never
    run, while the hoisted resize is asked for an empty size. *)
Example hoisted_differs_without_pixels :
  perceptual_difference_per_pixel no_pixels no_pixels = Ok []
  ∧ perceptual_difference_per_pixel_hoisted no_pixels no_pixels
    = Raise RuntimeError.
Proof. split; reflexivity. Qed.

(** ** Claims about the aggregation *)

(** C1.  For equal-length sequences A and B that satisfy the layer/channel
    invariant, the aggregation returns a map whose value at every pixel
    (h, w) is the sum, over the layers l and from an accumulator of 0, of
    the sum over the C_l channels of the absolute difference of the
    bilinearly resampled A[l] and B[l] at (h, w), divided by C_l. *)
Theorem aggregate_value_per_pixel (A B : list Tensor) :
  valid_inputs A B →
  ∃ m, perceptual_difference_per_pixel A B = Ok m
       ∧ ∀ h w, (h < (ref_shape A).1)%nat → (w < (ref_shape A).2)%nat →
           map_at m h w
           = Some (aggregate_score A B (ref_shape A).1 (ref_shape A).2 h w).
Proof.
  intros Hvalid. eexists. split.
  - by apply perceptual_difference_per_pixel_valid.
  - intros h w Hh Hw. by apply score_table_lookup.
Qed.

Lemma aggregate_value_per_pixel_witness :
  valid_inputs demo_input demo_synthesized
  ∧ ∃ m, perceptual_difference_per_pixel demo_input demo_synthesized = Ok m
       ∧ ∀ h w, (h < 2)%nat → (w < 2)%nat →
           map_at m h w
           = Some (aggregate_score demo_input demo_synthesized 2 2 h w).
Proof.
  split; [solve_valid|].
  apply (aggregate_value_per_pixel demo_input demo_synthesized). solve_valid.
Defined.

(** C3.  On valid inputs the resulting map has the shape (H_ref, W_ref) of
    feature layer 0 of the first sequence; nothing else enters the shape. *)
Theorem aggregate_shape (A B : list Tensor) :
  valid_inputs A B →
  ∃ m, perceptual_difference_per_pixel A B = Ok m
       ∧ map_shape m (ref_shape A).1 (ref_shape A).2.
Proof.
  intros Hvalid. eexists. split.
  - by apply perceptual_difference_per_pixel_valid.
  - apply score_table_shape.
Qed.

Lemma aggregate_shape_witness :
  valid_inputs demo_input demo_synthesized
  ∧ ∃ m, perceptual_difference_per_pixel demo_input demo_synthesized = Ok m
       ∧ map_shape m 2 2.
Proof.
  split; [solve_valid|].
  apply (aggregate_shape demo_input demo_synthesized). solve_valid.
Defined.

(** C4, as the code has it.  The shape of the map is read off layer 0 of
    the first argument (line 98), so the two orders can only agree when
    layer 0 has the same spatial shape in both sequences; for valid
    inputs with that property, swapping the two sequences gives the
    same map. *)
Theorem aggregate_symmetric (A B : list Tensor) :
  valid_inputs A B → ref_shape A = ref_shape B →
  ∃ m, perceptual_difference_per_pixel A B = Ok m
       ∧ perceptual_difference_per_pixel B A = Ok m.
Proof.
  intros Hvalid Hshape. eexists. split.
  - by apply perceptual_difference_per_pixel_valid.
  - rewrite perceptual_difference_per_pixel_valid
      by (by apply valid_inputs_sym).
    rewrite <- Hshape. f_equal. unfold score_table.
    apply list_fmap_ext. intros _ h _. apply list_fmap_ext. intros _ w _.
    symmetry. apply aggregate_score_sym. apply Hvalid.
Qed.

Lemma aggregate_symmetric_witness :
  valid_inputs demo_input demo_synthesized
  ∧ ref_shape demo_input = ref_shape demo_synthesized
  ∧ ∃ m, perceptual_difference_per_pixel demo_input demo_synthesized = Ok m
       ∧ perceptual_difference_per_pixel demo_synthesized demo_input = Ok m.
Proof.
  split; [solve_valid|]. split; [reflexivity|].
  apply (aggregate_symmetric demo_input demo_synthesized);
    [solve_valid|reflexivity].
Defined.

(** The claim without the condition on layer 0 fails: a 2x2 layer
    against a 1x1 layer gives a 2x2 map in one order and a 1x1 map in
    the other. *)
Lemma swap_changes_shape :
  valid_inputs ramp_2x2 five_1x1
  ∧ perceptual_difference_per_pixel ramp_2x2 five_1x1
    = Ok [[Qc_of_Z 5; Qc_of_Z 4]; [Qc_of_Z 3; Qc_of_Z 2]]
  ∧ perceptual_difference_per_pixel five_1x1 ramp_2x2
    = Ok ((Q2Qc (7 # 2) :: nil) :: nil)
  ∧ ¬ ∃ m, perceptual_difference_per_pixel ramp_2x2 five_1x1 = Ok m
           ∧ perceptual_difference_per_pixel five_1x1 ramp_2x2 = Ok m.
Proof.
  assert (H1 : perceptual_difference_per_pixel ramp_2x2 five_1x1
    = Ok [[Qc_of_Z 5; Qc_of_Z 4]; [Qc_of_Z 3; Qc_of_Z 2]])
    by Qc_compute.
  assert (H2 : perceptual_difference_per_pixel five_1x1 ramp_2x2
    = Ok ((Q2Qc (7 # 2) :: nil) :: nil)) by Qc_compute.
  split; [solve_valid|]. split; [exact H1|]. split; [exact H2|].
  intros (m & Hm1 & Hm2). rewrite H1 in Hm1. rewrite H2 in Hm2.
  injection Hm1 as <-. discriminate Hm2.
Qed.

Lemma score_table_diag (A : list Tensor) (height width : nat) :
  score_table A A height width = zeros height width.
Proof.
  unfold score_table, zeros, range.
  assert (Hconst : ∀ {X} (x : X) n j, (λ _, x) <$> seq j n = replicate n x).
  { intros X x n. induction n as [|n IH]; intros j; [done|].
    cbn. by rewrite IH. }
  rewrite <- Hconst with (j := 0%nat).
  apply list_fmap_ext. intros _ h _. rewrite <- Hconst with (j := 0%nat).
  apply list_fmap_ext. intros _ w _. apply aggregate_score_diag.
Qed.

(** C5.  When the two sequences are identical, the map is zero at every
    pixel (exactly zero, hence within any epsilon). *)
Theorem aggregate_identical_zero (A B : list Tensor) :
  valid_inputs A B → A = B →
  perceptual_difference_per_pixel A B
  = Ok (zeros (ref_shape A).1 (ref_shape A).2).
Proof.
  intros Hvalid <-. rewrite perceptual_difference_per_pixel_valid by done.
  by rewrite score_table_diag.
Qed.

Lemma aggregate_identical_zero_witness :
  valid_inputs demo_input demo_input
  ∧ demo_input = demo_input
  ∧ perceptual_difference_per_pixel demo_input demo_input = Ok (zeros 2 2).
Proof.
  split; [solve_valid|]. split; [reflexivity|].
  apply (aggregate_identical_zero demo_input demo_input);
    [solve_valid|reflexivity].
Defined.

(** C6.  On valid inputs every value stored in the map is non-negative. *)
Theorem aggregate_nonnegative (A B : list Tensor) :
  valid_inputs A B →
  ∃ m, perceptual_difference_per_pixel A B = Ok m
       ∧ ∀ h w v, map_at m h w = Some v → 0 ≤ v.
Proof.
  intros Hvalid. eexists. split.
  - by apply perceptual_difference_per_pixel_valid.
  - intros h w v Hv.
    destruct (map_at_Some _ _ _ _ _ _ (score_table_shape A B _ _) Hv)
      as [Hh Hw].
    rewrite score_table_lookup in Hv by done. injection Hv as <-.
    apply aggregate_score_nonneg.
Qed.

Lemma aggregate_nonnegative_witness :
  valid_inputs demo_input demo_synthesized
  ∧ ∃ m, perceptual_difference_per_pixel demo_input demo_synthesized = Ok m
       ∧ ∀ h w v, map_at m h w = Some v → 0 ≤ v.
Proof.
  split; [solve_valid|].
  apply (aggregate_nonnegative demo_input demo_synthesized). solve_valid.
Defined.

(** C7.  Resizing every layer once and indexing into the resized layers
    inside the pixel loops yields, on valid inputs, the very map of the
    reference aggregation, which resizes inside the pixel loops. *)
Theorem hoisted_resize_same_map (A B : list Tensor) :
  valid_inputs A B →
  ∃ m, perceptual_difference_per_pixel A B = Ok m
       ∧ perceptual_difference_per_pixel_hoisted A B = Ok m.
Proof.
  intros Hvalid. eexists. split.
  - by apply perceptual_difference_per_pixel_valid.
  - rewrite perceptual_difference_per_pixel_hoisted_valid by done.
    by apply perceptual_difference_per_pixel_valid.
Qed.

Lemma hoisted_resize_same_map_witness :
  valid_inputs demo_input demo_synthesized
  ∧ ∃ m, perceptual_difference_per_pixel demo_input demo_synthesized = Ok m
       ∧ perceptual_difference_per_pixel_hoisted demo_input demo_synthesized
         = Ok m.
Proof.
  split; [solve_valid|].
  apply (hoisted_resize_same_map demo_input demo_synthesized). solve_valid.
Defined.

(** ** Sequences of different lengths, layers of different channel counts *)

Lemma zip_app_l {X Y} (xs extra : list X) (ys : list Y) :
  length xs = length ys → zip_ (xs ++ extra) ys = zip_ xs ys.
Proof.
  revert ys. induction xs as [|x xs IH]; intros [|y ys] Hlen;
    try discriminate.
  - by destruct extra.
  - cbn. f_equal. apply IH. cbn in Hlen. lia.
Qed.

Lemma zip_app_r {X Y} (xs : list X) (ys extra : list Y) :
  length xs = length ys → zip_ xs (ys ++ extra) = zip_ xs ys.
Proof.
  revert ys. induction xs as [|x xs IH]; intros [|y ys] Hlen;
    try discriminate; [done|].
  cbn. f_equal. apply IH. cbn in Hlen. lia.
Qed.

(** The aggregation sees its arguments only through layer 0 of the first
    one and through the zipped pairs. *)
Lemma perceptual_difference_per_pixel_zip (A B A' B' : list Tensor) :
  A !! 0%nat = A' !! 0%nat → zip_ A B = zip_ A' B' →
  perceptual_difference_per_pixel A B = perceptual_difference_per_pixel A' B'.
Proof.
  intros H0 Hzip.
  unfold perceptual_difference_per_pixel, perceptual_difference, getitem.
  by rewrite H0, Hzip.
Qed.

Lemma broadcast_tensors_mismatch (x y : list Qc) :
  length x ≠ length y → length x ≠ 1%nat → length y ≠ 1%nat →
  broadcast_tensors x y = Raise RuntimeError.
Proof.
  intros Hne Hx Hy. unfold broadcast_tensors. rewrite decide_False by done.
  destruct x as [|x0 [|x1 x]], y as [|y0 [|y1 y]]; done.
Qed.

Lemma interpolate_size_c (t t' : Tensor) (size : nat * nat) :
  interpolate t size = Ok t' → size_c t' = size_c t.
Proof.
  unfold interpolate. destruct size as [height width].
  case_decide; [|done]. by intros [= <-].
Qed.

Lemma select_channels_length (t : Tensor) (n h w : nat) (x : list Qc) :
  select_channels t n h w = Ok x → length x = size_c t.
Proof.
  unfold select_channels. case_decide; [|done]. intros [= <-].
  by rewrite length_fmap, length_seq.
Qed.

Lemma pixel_difference_mismatch (a b : Tensor) (height width h w : nat) :
  size_c a ≠ size_c b → size_c a ≠ 1%nat → size_c b ≠ 1%nat →
  raises (pixel_difference height width h w a b).
Proof.
  intros Hne Ha Hb. unfold pixel_difference.
  destruct (interpolate a (height, width)) as [a'|e] eqn:Ea; [|by eexists].
  destruct (interpolate b (height, width)) as [b'|e] eqn:Eb; [|by eexists].
  apply interpolate_size_c in Ea, Eb. result_simpl.
  destruct (select_channels a' 0 h w) as [x|e] eqn:Ex; [|by eexists].
  destruct (select_channels b' 0 h w) as [y|e] eqn:Ey; [|by eexists].
  apply select_channels_length in Ex, Ey. result_simpl.
  unfold l1_loss_sum.
  rewrite broadcast_tensors_mismatch by congruence.
  by eexists.
Qed.

Lemma perceptual_difference_mismatch (height width h w : nat) :
  ∀ (A B : list Tensor) (l : nat) (a b : Tensor),
    A !! l = Some a → B !! l = Some b →
    size_c a ≠ size_c b → size_c a ≠ 1%nat → size_c b ≠ 1%nat →
    raises (perceptual_difference A B height width h w).
Proof.
  intros A B l a b HA HB Hne Ha Hb. unfold perceptual_difference.
  generalize (Q2Qc 0). revert B l HA HB.
  induction A as [|a0 A IH]; intros [|b0 B] l HA HB acc; try done.
  cbn [zip_ for_each]. destruct l as [|l].
  - injection HA as ->. injection HB as ->.
    destruct (pixel_difference_mismatch a b height width h w Hne Ha Hb)
      as [e ->].
    by eexists.
  - destruct (pixel_difference height width h w a0 b0) as [d|e];
      [|by eexists].
    result_simpl. by eapply IH.
Qed.

(** C2, as the code has it.  No check compares the two lengths: [zip]
    pairs the layers by position and the layers one sequence has beyond
    the other are ignored, so extra layers appended to either of two
    equal-length sequences do not change the result.  A paired layer whose
    channel counts differ and are both other than 1 makes the aggregation
    raise as soon as layer 0 of the first sequence has a pixel. *)
Theorem mismatch_handling (A B : list Tensor) :
  A ≠ [] →
  (∀ extra, length A = length B →
     perceptual_difference_per_pixel (A ++ extra) B
     = perceptual_difference_per_pixel A B
     ∧ perceptual_difference_per_pixel A (B ++ extra)
       = perceptual_difference_per_pixel A B)
  ∧ (∀ l a b, A !! l = Some a → B !! l = Some b →
       size_c a ≠ size_c b → size_c a ≠ 1%nat → size_c b ≠ 1%nat →
       (0 < (ref_shape A).1)%nat → (0 < (ref_shape A).2)%nat →
       raises (perceptual_difference_per_pixel A B)).
Proof.
  intros Hne. split.
  - intros extra Hlen. split; apply perceptual_difference_per_pixel_zip.
    + by destruct A.
    + by apply zip_app_l.
    + done.
    + by apply zip_app_r.
  - intros l a b HA HB Hc Ha Hb Hh Hw.
    rewrite perceptual_difference_per_pixel_table.
    destruct A as [|fm0 A]; [done|]. cbn [getitem lookup list_lookup].
    result_simpl. cbn in Hh, Hw.
    destruct (size_h fm0) as [|height] eqn:Hheight; [lia|].
    destruct (size_w fm0) as [|width] eqn:Hwidth; [lia|].
    unfold range. cbn [seq mapM].
    destruct (perceptual_difference_mismatch (S height) (S width) 0 0
                (fm0 :: A) B l a b HA HB Hc Ha Hb) as [e ->].
    by eexists.
Qed.

Lemma mismatch_handling_witness :
  two_channels ≠ []
  ∧ (∀ extra, length two_channels = length three_channels →
       perceptual_difference_per_pixel (two_channels ++ extra) three_channels
       = perceptual_difference_per_pixel two_channels three_channels
       ∧ perceptual_difference_per_pixel two_channels (three_channels ++ extra)
         = perceptual_difference_per_pixel two_channels three_channels)
  ∧ (∀ l a b, two_channels !! l = Some a → three_channels !! l = Some b →
       size_c a ≠ size_c b → size_c a ≠ 1%nat → size_c b ≠ 1%nat →
       (0 < 1)%nat → (0 < 1)%nat →
       raises (perceptual_difference_per_pixel two_channels three_channels)).
Proof.
  split; [discriminate|].
  apply (mismatch_handling two_channels three_channels). discriminate.
Defined.

(** The claim as worded fails: a two-layer sequence against a one-layer
    sequence is aggregated over the first layer pair, without an error. *)
Lemma length_mismatch_not_rejected :
  length two_layers ≠ length one_layer
  ∧ perceptual_difference_per_pixel two_layers one_layer
    = Ok ((Qc_of_Z 2 :: nil) :: nil)
  ∧ ¬ raises (perceptual_difference_per_pixel two_layers one_layer).
Proof.
  split; [discriminate|].
  assert (Hval : perceptual_difference_per_pixel two_layers one_layer
                 = Ok ((Qc_of_Z 2 :: nil) :: nil)) by Qc_compute.
  split; [exact Hval|]. rewrite Hval. by intros [e He].
Qed.

(** A layer with one channel against a layer with three is broadcast,
    not rejected; the sum runs over three channels and is divided by the
    channel count of the first argument. *)
Example channel_broadcast_not_rejected :
  perceptual_difference_per_pixel one_channel three_channels
  = Ok ((Qc_of_Z 6 :: nil) :: nil).
Proof. Qc_compute. Qed.

Example channel_mismatch_rejected :
  perceptual_difference_per_pixel two_channels three_channels
  = Raise RuntimeError.
Proof. reflexivity. Qed.

(** With no layer in the second sequence, no pair is visited and the map
    stays at its initial zeros. *)
Example empty_second_sequence :
  perceptual_difference_per_pixel one_layer [] = Ok (zeros 1 1).
Proof. reflexivity. Qed.

(** ** Claims about preprocessing *)

Lemma scaled_intensity_range (b : byte) :
  0 ≤ Qc_of_nat (Byte.to_nat b) / Qc_of_nat 255 ≤ 1.
Proof.
  split.
  - apply Qcdiv_nonneg; apply Qc_of_nat_nonneg.
  - pose proof (Byte.to_nat_bounded b) as Hb.
    unfold Qcle, Qcdiv, Qcmult, Qcinv, Q2Qc, this.
    rewrite !Qred_correct.
    unfold Qc_of_nat, Qc_of_Z, this.
    change (/ inject_Z (Z.of_nat 255))%Q with (1 # 255)%Q.
    unfold Qle. cbn. lia.
Qed.

Lemma imagenet_std_nonzero : ¬ Exists (λ s : Qc, s = 0) imagenet_std.
Proof.
  unfold imagenet_std. intros H.
  repeat (apply Exists_cons in H as [H|H];
          [apply (f_equal this) in H; vm_compute in H; discriminate|]).
  by apply Exists_nil in H.
Qed.

Section PreprocessProperties.
Variable resample : Image → nat → nat → nat → nat → nat → byte.

(** C8.  Whatever the size of the decoded image, it is resized to
    exactly 224x224; intensities are scaled into [0, 1]; every channel
    is normalised with the fixed mean and deviation; and the result has
    a leading batch dimension of size 1. *)
Theorem preprocess_contract (img : Image) :
  im_width (Resize resample (224, 224)%nat img) = 224%nat
  ∧ im_height (Resize resample (224, 224)%nat img) = 224%nat
  ∧ imagenet_mean = [Q2Qc (485 # 1000); Q2Qc (456 # 1000); Q2Qc (406 # 1000)]
  ∧ imagenet_std = [Q2Qc (229 # 1000); Q2Qc (224 # 1000); Q2Qc (225 # 1000)]
  ∧ ∃ t, image_tensor resample img = Ok t
      ∧ size_n t = 1%nat ∧ size_c t = 3%nat
      ∧ size_h t = 224%nat ∧ size_w t = 224%nat
      ∧ ∀ n c y x,
          let scaled :=
            Qc_of_nat (Byte.to_nat
              (getpixel (Resize resample (224, 224)%nat img) x y c))
            / Qc_of_nat 255 in
          0 ≤ scaled ≤ 1
          ∧ item t n c y x
            = (scaled - imagenet_mean !!! c) / imagenet_std !!! c.
Proof.
  do 4 (split; [reflexivity|]).
  unfold image_tensor, transform, Normalize.
  rewrite decide_False by apply imagenet_std_nonzero.
  rewrite decide_True by (split; by left). result_simpl.
  eexists. split; [reflexivity|]. do 4 (split; [reflexivity|]).
  intros n c y x. split; [apply scaled_intensity_range|reflexivity].
Qed.
End PreprocessProperties.

(** ** Claims about the output directory *)

Section ScriptProperties.
Variable decode : list byte → option Image.
Variable resample : Image → nat → nat → nat → nat → nat → byte.
Variable resnet18 : Tensor → list Tensor.
Variable render : Tensor → list byte.

Lemma Image_open_reads (path : string * string) (fs : FileSystem) :
  (Image_open decode path fs).2 = fs.
Proof.
  unfold Image_open. destruct (files fs !! path) as [data|]; [|done].
  by destruct (decode data).
Qed.

(** Everything before [savefig] leaves the file system as it found it. *)
Lemma heatmap_reads (frame_number : nat) (fs : FileSystem) :
  (heatmap decode resample resnet18 render frame_number fs).2 = fs.
Proof.
  unfold heatmap, mbind, IO_bind, lift, mret, IO_ret.
  repeat match goal with
  | |- context [Image_open decode ?p ?s] =>
      let H := fresh in
      pose proof (Image_open_reads p s) as H;
      destruct (Image_open decode p s) as [[?|?] ?]; cbn in H; subst;
      [|done]
  | |- context [match ?r with Ok _ => _ | Raise _ => _ end] =>
      destruct r; [|done]
  end.
  done.
Qed.

(** No step of an iteration adds a directory. *)
Lemma process_frame_directories (frame_number : nat) (fs : FileSystem) :
  directories
    (process_frame decode resample resnet18 render frame_number fs).2
  = directories fs.
Proof.
  unfold process_frame, mbind, IO_bind.
  pose proof (heatmap_reads frame_number fs) as Hfs.
  destruct (heatmap _ _ _ _ _ fs) as [[data|e] fs']; cbn in Hfs; subst;
    [|done].
  unfold savefig. by case_decide.
Qed.

(** Nor does any run of the loop, whatever exists beforehand. *)
Lemma main_directories (fs : FileSystem) :
  directories (main decode resample resnet18 render fs).2 = directories fs.
Proof.
  unfold main. generalize (seq 1 1850). generalize tt.
  intros u frames. revert u fs.
  induction frames as [|frame_number frames IH]; intros u fs; [done|].
  cbn [for_each]. unfold mbind at 1. unfold IO_bind at 1.
  pose proof (process_frame_directories frame_number fs) as Hdirs.
  destruct (process_frame _ _ _ _ frame_number fs) as [[u'|e] fs'];
    cbn in Hdirs; [|done].
  by rewrite IH.
Qed.

Lemma savefig_missing_directory (name : string) (data : list byte)
    (fs : FileSystem) :
  save_dir ∉ directories fs →
  savefig (path_join save_dir name) data fs = (Raise FileNotFoundError, fs).
Proof. intros Hdir. unfold savefig. by rewrite decide_False. Qed.

(** A frame whose figure was computed fails in [savefig]; a frame that
    failed earlier keeps its own exception. *)
Lemma process_frame_missing_directory (frame_number : nat)
    (fs : FileSystem) :
  save_dir ∉ directories fs →
  ∃ e, process_frame decode resample resnet18 render frame_number fs
       = (Raise e, fs)
       ∧ ∀ data fs',
           heatmap decode resample resnet18 render frame_number fs
           = (Ok data, fs') →
           e = FileNotFoundError.
Proof.
  intros Hdir. unfold process_frame, mbind, IO_bind.
  pose proof (heatmap_reads frame_number fs) as Hfs.
  destruct (heatmap _ _ _ _ _ fs) as [[data|e] fs']; cbn in Hfs; subst.
  - rewrite savefig_missing_directory by done. by eexists.
  - by eexists.
Qed.

(** C10.  With the creation of the output directory commented out,
    nothing in the script creates it: if it does not exist, saving the
    figure of any frame raises the error of a missing path, every frame
    fails and leaves the file system untouched, a frame whose figure
    was computed fails in [savefig], and the run as a whole ends with
    an exception and exactly the directories it started with. *)
Theorem missing_save_dir_fails (fs : FileSystem) (frame_number : nat) :
  save_dir ∉ directories fs →
  (∀ name data,
     savefig (path_join save_dir name) data fs
     = (Raise FileNotFoundError, fs))
  ∧ (∃ e, process_frame decode resample resnet18 render frame_number fs
          = (Raise e, fs)
          ∧ ∀ data fs',
              heatmap decode resample resnet18 render frame_number fs
              = (Ok data, fs') →
              e = FileNotFoundError)
  ∧ (∃ e, main decode resample resnet18 render fs = (Raise e, fs)).
Proof.
  intros Hdir. split; [|split].
  - intros name data. by apply savefig_missing_directory.
  - by apply process_frame_missing_directory.
  - unfold main. change (seq 1 1850) with (1%nat :: seq 2 1849).
    cbn [for_each]. unfold mbind at 1. unfold IO_bind at 1.
    destruct (process_frame_missing_directory 1 fs Hdir) as (e & -> & _).
    by eexists.
Qed.
End ScriptProperties.

Lemma missing_save_dir_fails_witness :
  (save_dir ∉ directories frames_only)
  ∧ heatmap decode_black resample_black tiny_network no_bytes 1 frames_only
    = (Ok [], frames_only)
  ∧ (∀ name data,
       savefig (path_join save_dir name) data frames_only
       = (Raise FileNotFoundError, frames_only))
  ∧ (∃ e, process_frame decode_black resample_black tiny_network no_bytes
            1 frames_only
          = (Raise e, frames_only)
          ∧ ∀ data fs',
              heatmap decode_black resample_black tiny_network no_bytes
                1 frames_only
              = (Ok data, fs') →
              e = FileNotFoundError)
  ∧ (∃ e, main decode_black resample_black tiny_network no_bytes frames_only
          = (Raise e, frames_only)).
Proof.
  assert (Hdir : save_dir ∉ directories frames_only).
  { cbn. rewrite elem_of_union, !elem_of_singleton. by intros [|]. }
  split; [exact Hdir|]. split; [eval_eq|].
  apply (missing_save_dir_fails decode_black resample_black tiny_network
           no_bytes frames_only 1).
  exact Hdir.
Defined.

(** The same frame with an image of one pixel is not drawn at all: the
    squeezed map has no dimension left and [plt.imshow] raises before
    [savefig] is reached. *)
Example one_pixel_image_not_drawn :
  process_frame decode_pixel resample_black tiny_network no_bytes
    1 frames_only
  = (Raise TypeError, frames_only).
Proof. eval_eq. Qed.

(** * Further properties of the script *)

(** ** More on the error monad *)

Lemma mapM_Ok_inv {A B} (f : A → result B) (xs : list A) (ys : list B) :
  mapM f xs = Ok ys → Forall2 (λ x y, f x = Ok y) xs ys.
Proof.
  revert ys. induction xs as [|x xs IH]; intros ys Hys.
  - injection Hys as <-. constructor.
  - cbn [mapM] in Hys. destruct (f x) as [y|e] eqn:Hy; [|done].
    destruct (mapM f xs) as [ys'|e] eqn:Hys'; [|done].
    injection Hys as <-. constructor; [done|by apply IH].
Qed.

Lemma mapM_is_Ok {A B} (f : A → result B) (xs : list A) :
  (∀ x, x ∈ xs → ∃ y, f x = Ok y) → ∃ ys, mapM f xs = Ok ys.
Proof.
  induction xs as [|x xs IH]; intros Hf; [by eexists|].
  destruct (Hf x) as [y Hy]; [by left|].
  destruct IH as [ys Hys]; [intros z Hz; apply Hf; by right|].
  cbn [mapM]. rewrite Hy, Hys. by eexists.
Qed.

Lemma fmap_const_seq {X} (x : X) (n j : nat) :
  (λ _, x) <$> seq j n = replicate n x.
Proof. revert j. induction n as [|n IH]; intros j; [done|]. cbn. by rewrite IH. Qed.

Lemma table_lookup (height width : nat) (f : nat → nat → Qc) (h w : nat) :
  (h < height)%nat → (w < width)%nat →
  map_at (table height width f) h w = Some (f h w).
Proof.
  intros Hh Hw. unfold map_at, table, range.
  rewrite list_lookup_fmap, lookup_seq_lt by done. cbn.
  by rewrite list_lookup_fmap, lookup_seq_lt.
Qed.

Lemma table_ext (height width : nat) (f g : nat → nat → Qc) :
  (∀ h w, (h < height)%nat → (w < width)%nat → f h w = g h w) →
  table height width f = table height width g.
Proof.
  intros Hfg. unfold table, range.
  apply list_fmap_ext. intros i h [-> Hh]%lookup_seq.
  apply list_fmap_ext. intros j w [-> Hw]%lookup_seq. by apply Hfg.
Qed.

(** ** When the layer loop gets through a pair *)

Lemma interpolate_Ok_inv (t t' : Tensor) (height width : nat) :
  interpolate t (height, width) = Ok t' →
  (0 < size_c t ∧ 0 < size_h t ∧ 0 < size_w t ∧ 0 < height ∧ 0 < width)%nat
  ∧ t' = mkTensor (size_n t) (size_c t) height width
                  (bilinear_at t height width).
Proof. unfold interpolate. case_decide; [|done]. by intros [= <-]. Qed.

Lemma select_channels_Ok_inv (t : Tensor) (n h w : nat) (x : list Qc) :
  select_channels t n h w = Ok x →
  (n < size_n t ∧ h < size_h t ∧ w < size_w t)%nat
  ∧ x = (λ c, item t n c h w) <$> seq 0 (size_c t).
Proof. unfold select_channels. case_decide; [|done]. by intros [= <-]. Qed.

Lemma broadcast_tensors_Ok_iff (x y : list Qc) :
  (∃ p, broadcast_tensors x y = Ok p)
  ↔ length x = length y ∨ length x = 1%nat ∨ length y = 1%nat.
Proof.
  unfold broadcast_tensors. case_decide as Hlen.
  - split; [by left|by eexists].
  - destruct x as [|x0 [|x1 x]], y as [|y0 [|y1 y]]; cbn in *;
      try (exfalso; lia);
      (split; [intros [p Hp]; first [done | lia]
              | intros Hor; first [by eexists | exfalso; lia]]).
Qed.

Lemma l1_loss_sum_nonneg (x y : list Qc) (v : Qc) :
  l1_loss_sum x y = Ok v → 0 ≤ v.
Proof.
  unfold l1_loss_sum.
  destruct (broadcast_tensors x y) as [[x' y']|e]; [|done].
  intros [= <-]. apply Qcsum_nonneg.
  generalize y'. induction x' as [|a x' IH]; intros [|b y'']; cbn;
    try constructor; [apply Qcabs_nonneg|apply IH].
Qed.

Lemma pixel_difference_nonneg (a b : Tensor) (height width h w : nat)
    (d : Qc) :
  pixel_difference height width h w a b = Ok d → 0 ≤ d.
Proof.
  unfold pixel_difference.
  destruct (interpolate a (height, width)) as [a'|e]; [|done].
  destruct (interpolate b (height, width)) as [b'|e]; [|done].
  result_simpl.
  destruct (select_channels a' 0 h w) as [x|e]; [|done].
  destruct (select_channels b' 0 h w) as [y|e]; [|done].
  result_simpl.
  destruct (l1_loss_sum x y) as [loss|e] eqn:Hloss; [|done].
  intros [= <-]. apply Qcdiv_nonneg; [|apply Qc_of_nat_nonneg].
  by eapply l1_loss_sum_nonneg.
Qed.

Lemma pixel_difference_Ok_iff (a b : Tensor) (height width h w : nat) :
  (h < height)%nat → (w < width)%nat →
  (∃ d, pixel_difference height width h w a b = Ok d) ↔ pair_ok a b.
Proof.
  intros Hh Hw. unfold pixel_difference, pair_ok, usable_layer. split.
  - intros [d Hd].
    destruct (interpolate a (height, width)) as [a'|e] eqn:Ea; [|done].
    destruct (interpolate b (height, width)) as [b'|e] eqn:Eb; [|done].
    cbn [mbind result_bind] in Hd.
    destruct (select_channels a' 0 h w) as [x|e] eqn:Ex; [|done].
    destruct (select_channels b' 0 h w) as [y|e] eqn:Ey; [|done].
    cbn [mbind result_bind] in Hd. unfold l1_loss_sum in Hd.
    destruct (broadcast_tensors x y) as [p|e] eqn:Hp; [|done].
    assert (Hbc : ∃ p, broadcast_tensors x y = Ok p) by (by eexists).
    apply broadcast_tensors_Ok_iff in Hbc.
    apply interpolate_Ok_inv in Ea as [Ha ->], Eb as [Hb ->].
    apply select_channels_Ok_inv in Ex as [Hx ->], Ey as [Hy ->].
    cbn [size_n size_c size_h size_w] in Hx, Hy, Hbc.
    rewrite !length_fmap, !length_seq in Hbc. lia.
  - intros ((Han & Hac & Hah & Haw) & (Hbn & Hbc & Hbh & Hbw) & Hc).
    rewrite !interpolate_Ok by lia. result_simpl.
    rewrite !select_channels_Ok by (cbn; lia). result_simpl.
    cbn [size_c item]. unfold l1_loss_sum.
    destruct (proj2 (broadcast_tensors_Ok_iff
      ((λ c, bilinear_at a height width 0 c h w) <$> seq 0 (size_c a))
      ((λ c, bilinear_at b height width 0 c h w) <$> seq 0 (size_c b))))
      as [[x y] ->]; [by rewrite !length_fmap, !length_seq|].
    by eexists.
Qed.

Lemma perceptual_difference_Ok_iff (A B : list Tensor)
    (height width h w : nat) :
  (h < height)%nat → (w < width)%nat →
  (∃ v, perceptual_difference A B height width h w = Ok v)
  ↔ Forall (λ '(a, b), pair_ok a b) (zip_ A B).
Proof.
  intros Hh Hw. unfold perceptual_difference.
  generalize (Q2Qc 0). generalize (zip_ A B). clear A B.
  induction l as [|[a b] l IH]; intros acc.
  - split; [constructor|by eexists].
  - cbn [for_each]. rewrite Forall_cons.
    rewrite <- (pixel_difference_Ok_iff a b height width h w) by done.
    destruct (pixel_difference height width h w a b) as [d|e].
    + result_simpl. rewrite IH. split; [intros ?; split; [by eexists|done]|].
      by intros [_ ?].
    + split; [by intros [v ?]|]. by intros [[d ?] _].
Qed.

Lemma perceptual_difference_nonneg (A B : list Tensor)
    (height width h w : nat) (v : Qc) :
  perceptual_difference A B height width h w = Ok v → 0 ≤ v.
Proof.
  unfold perceptual_difference.
  assert (Hgen : ∀ (l : list (Tensor * Tensor)) (acc : Qc), 0 ≤ acc →
    for_each (λ acc '(fm_input, fm_synthesized),
                d ← pixel_difference height width h w fm_input fm_synthesized;
                Ok (acc + d)) acc l = Ok v → 0 ≤ v).
  { induction l as [|[a b] l IH]; intros acc Hacc.
    - by intros [= <-].
    - cbn [for_each].
      destruct (pixel_difference height width h w a b) as [d|e] eqn:Hd;
        [|done].
      result_simpl. apply IH. apply Qcplus_nonneg_nonneg; [done|].
      by eapply pixel_difference_nonneg. }
  by apply Hgen.
Qed.

(** ** When the aggregation returns, and what it returns then *)

(** X1.  The aggregation returns a map exactly when the first sequence
    has a layer 0 and either that layer has no pixel (the loops do not
    run) or every zipped layer pair is usable and broadcasts; in every
    other case it raises. *)
Theorem aggregation_returns_iff (A B : list Tensor) :
  (∃ m, perceptual_difference_per_pixel A B = Ok m)
  ↔ A ≠ []
    ∧ ((ref_shape A).1 = 0%nat ∨ (ref_shape A).2 = 0%nat
       ∨ Forall (λ '(a, b), pair_ok a b) (zip_ A B)).
Proof.
  rewrite perceptual_difference_per_pixel_table.
  destruct A as [|fm0 A]; [split; [by intros [m ?]|by intros [? _]]|].
  cbn [getitem lookup list_lookup ref_shape fst snd]. result_simpl.
  split.
  - intros [m Hm]. split; [done|].
    destruct (size_h fm0) as [|height] eqn:Hheight; [by left|].
    destruct (size_w fm0) as [|width] eqn:Hwidth; [by right; left|].
    right; right.
    apply mapM_Ok_inv in Hm. unfold range in Hm. cbn [seq] in Hm.
    inversion Hm as [|? row0 ? ? Hrow0 _]; subst.
    apply mapM_Ok_inv in Hrow0. cbn [seq] in Hrow0.
    inversion Hrow0 as [|? v ? ? Hv _]; subst.
    eapply perceptual_difference_Ok_iff; [| |by eexists]; lia.
  - intros [_ Hcases]. apply mapM_is_Ok. intros h Hh%elem_of_seq.
    apply mapM_is_Ok. intros w Hw%elem_of_seq.
    destruct Hcases as [?|[?|Hpairs]]; [lia..|].
    apply perceptual_difference_Ok_iff; [lia..|done].
Qed.

(** X2.  Whatever the inputs, a map the aggregation returns has the
    shape of layer 0 of the first sequence and holds no negative value. *)
Theorem returned_map_shape_nonneg (A B : list Tensor) (m : Map2) :
  perceptual_difference_per_pixel A B = Ok m →
  map_shape m (ref_shape A).1 (ref_shape A).2
  ∧ ∀ h w v, map_at m h w = Some v → 0 ≤ v.
Proof.
  rewrite perceptual_difference_per_pixel_table.
  destruct A as [|fm0 A]; [done|].
  cbn [getitem lookup list_lookup ref_shape fst snd]. result_simpl.
  intros Hm%mapM_Ok_inv. split; [split|].
  - apply Forall2_length in Hm. unfold range in Hm.
    by rewrite length_seq in Hm.
  - apply Forall_forall. intros row [h Hrow]%list_elem_of_lookup_1.
    destruct (Forall2_lookup_r _ _ _ _ _ Hm Hrow) as (h' & _ & Hmap).
    apply mapM_Ok_inv, Forall2_length in Hmap. unfold range in Hmap.
    by rewrite length_seq in Hmap.
  - intros h w v. unfold map_at. intros Hv.
    destruct (m !! h) as [row|] eqn:Hrow; [|done]. cbn in Hv.
    destruct (Forall2_lookup_r _ _ _ _ _ Hm Hrow) as (h' & _ & Hmap).
    apply mapM_Ok_inv in Hmap.
    destruct (Forall2_lookup_r _ _ _ _ _ Hmap Hv) as (w' & _ & Hpd).
    by eapply perceptual_difference_nonneg.
Qed.

Lemma returned_map_shape_nonneg_witness :
  perceptual_difference_per_pixel one_channel three_channels
  = Ok ((Qc_of_Z 6 :: nil) :: nil)
  ∧ map_shape ((Qc_of_Z 6 :: nil) :: nil) 1 1
  ∧ ∀ h w v, map_at ((Qc_of_Z 6 :: nil) :: nil) h w = Some v → 0 ≤ v.
Proof.
  assert (Hm : perceptual_difference_per_pixel one_channel three_channels
               = Ok ((Qc_of_Z 6 :: nil) :: nil)) by Qc_compute.
  split; [exact Hm|].
  exact (returned_map_shape_nonneg one_channel three_channels _ Hm).
Defined.

(** X3.  With an empty second sequence no layer pair is visited: the
    aggregation returns the all-zero map of the reference shape instead
    of raising. *)
Theorem empty_synthesized_all_zero (fm0 : Tensor) (A : list Tensor) :
  perceptual_difference_per_pixel (fm0 :: A) []
  = Ok (zeros (size_h fm0) (size_w fm0)).
Proof.
  rewrite perceptual_difference_per_pixel_table.
  cbn [getitem lookup list_lookup]. result_simpl.
  rewrite (mapM_Ok _ (λ _, replicate (size_w fm0) (Q2Qc 0))).
  - unfold zeros, range. by rewrite fmap_const_seq.
  - intros h _. rewrite (mapM_Ok _ (λ _, Q2Qc 0)).
    + unfold range. by rewrite fmap_const_seq.
    + done.
Qed.

(** ** The resize is linear and reproduces constants *)


Lemma bilinear_at_unfold (t : Tensor) (height width n c h w : nat) :
  bilinear_at t height width n c h w
  = let ch := compute_source_index_and_lambda (size_h t) height h in
    let cw := compute_source_index_and_lambda (size_w t) width w in
    ch.1.2 * (cw.1.2 * item t n c ch.1.1.1 cw.1.1.1
              + cw.2 * item t n c ch.1.1.1 cw.1.1.2)
    + ch.2 * (cw.1.2 * item t n c ch.1.1.2 cw.1.1.1
              + cw.2 * item t n c ch.1.1.2 cw.1.1.2).
Proof.
  unfold bilinear_at.
  destruct (compute_source_index_and_lambda (size_h t) height h)
    as [[[h0 h1] h0lambda] h1lambda].
  by destruct (compute_source_index_and_lambda (size_w t) width w)
    as [[[w0 w1] w0lambda] w1lambda].
Qed.



Lemma bilinear_at_batch0 (a a' : Tensor) (height width c h w : nat) :
  same_batch0 a a' →
  bilinear_at a height width 0 c h w = bilinear_at a' height width 0 c h w.
Proof.
  intros (_ & _ & Hh & Hw & Hitem). rewrite !bilinear_at_unfold.
  rewrite Hh, Hw. cbv zeta. by rewrite !Hitem.
Qed.














(** ** The triangle inequality *)








(** ** Layers that need no resampling, broadcast channels, batch entries *)

(** X7.  A layer pair that already has the reference shape is not
    changed by the resize: for a single pair of layers of one shape, the
    value at a pixel is the mean over the channels of the absolute
    difference of the raw entries there. *)
Theorem same_shape_layer_raw_difference (a b : Tensor) :
  usable_layer a → usable_layer b →
  size_c a = size_c b → size_h a = size_h b → size_w a = size_w b →
  perceptual_difference_per_pixel (a :: nil) (b :: nil)
  = Ok (table (size_h a) (size_w a) (raw_score a b)).
Proof.
  intros Ha Hb Hc Hh Hw.
  rewrite perceptual_difference_per_pixel_valid
    by (split; [done|]; constructor; [|constructor];
        split; [exact Ha|]; split; [exact Hb|exact Hc]).
  cbn [ref_shape fst snd]. f_equal. unfold score_table.
  apply table_ext. intros h w _ _.
  unfold aggregate_score. cbn. rewrite Qcplus_0_l.
  unfold layer_score, raw_score. f_equal. f_equal.
  apply list_fmap_ext. intros _ c _. cbn.
  rewrite bilinear_at_same_size. rewrite Hh, Hw.
  by rewrite bilinear_at_same_size.
Qed.

Lemma same_shape_layer_raw_difference_witness :
  usable_layer (ramp 2 2 2 1) ∧ usable_layer (ramp 2 2 2 3)
  ∧ perceptual_difference_per_pixel (ramp 2 2 2 1 :: nil) (ramp 2 2 2 3 :: nil)
    = Ok (table 2 2 (raw_score (ramp 2 2 2 1) (ramp 2 2 2 3))).
Proof.
  split; [cbn; unfold usable_layer; cbn; lia|].
  split; [cbn; unfold usable_layer; cbn; lia|].
  apply (same_shape_layer_raw_difference (ramp 2 2 2 1) (ramp 2 2 2 3));
    first [reflexivity | unfold usable_layer; cbn; lia].
Defined.

Lemma l1_loss_sum_singleton (x0 : Qc) (y : list Qc) :
  l1_loss_sum (x0 :: nil) y = Ok (Qcsum ((λ b, Qcabs (x0 - b)) <$> y)).
Proof.
  unfold l1_loss_sum, broadcast_tensors. case_decide as Hlen.
  - destruct y as [|y0 [|y1 y]]; done.
  - result_simpl. f_equal. f_equal. clear Hlen.
    induction y as [|b y IH]; [done|]. cbn. by rewrite <- IH.
Qed.

(** X8.  A one-channel layer in the first sequence is broadcast against
    all channels of its partner, and the sum is divided by the channel
    count of the first layer, which is 1: the value is the plain sum
    over the partner's channels. *)
Theorem one_channel_input_not_normalised (a b : Tensor) :
  usable_layer a → usable_layer b → size_c a = 1%nat →
  perceptual_difference_per_pixel (a :: nil) (b :: nil)
  = Ok (table (size_h a) (size_w a)
          (broadcast_score a b (size_h a) (size_w a))).
Proof.
  intros (Han & Hac & Hah & Haw) (Hbn & Hbc & Hbh & Hbw) Hc.
  rewrite perceptual_difference_per_pixel_table.
  cbn [getitem lookup list_lookup]. result_simpl. unfold table.
  apply mapM_Ok. intros h Hh%elem_of_seq.
  apply mapM_Ok. intros w Hw%elem_of_seq.
  unfold perceptual_difference. cbn [zip_ for_each]. unfold pixel_difference.
  rewrite !interpolate_Ok by lia. result_simpl.
  rewrite !select_channels_Ok by (cbn; lia). result_simpl.
  cbn [size_c item]. rewrite Hc. cbn [seq fmap list_fmap].
  rewrite l1_loss_sum_singleton. result_simpl.
  rewrite <- list_fmap_compose. unfold broadcast_score.
  f_equal. rewrite Qcplus_0_l.
  replace (Qc_of_nat 1) with (Q2Qc 1) by (by apply Qc_is_canon).
  by rewrite (right_id 1 Qcdiv).
Qed.

Lemma one_channel_input_not_normalised_witness :
  usable_layer (full 1 1 1 1) ∧ usable_layer (full 3 1 1 3)
  ∧ size_c (full 1 1 1 1) = 1%nat
  ∧ perceptual_difference_per_pixel (full 1 1 1 1 :: nil) (full 3 1 1 3 :: nil)
    = Ok (table 1 1 (broadcast_score (full 1 1 1 1) (full 3 1 1 3) 1 1)).
Proof.
  split; [unfold usable_layer; cbn; lia|].
  split; [unfold usable_layer; cbn; lia|]. split; [reflexivity|].
  apply (one_channel_input_not_normalised (full 1 1 1 1) (full 3 1 1 3));
    first [reflexivity | unfold usable_layer; cbn; lia].
Defined.

Lemma interpolate_Raise (t : Tensor) (height width : nat) :
  ¬ (0 < size_c t ∧ 0 < size_h t ∧ 0 < size_w t
     ∧ 0 < height ∧ 0 < width)%nat →
  interpolate t (height, width) = Raise RuntimeError.
Proof. intros. unfold interpolate. by rewrite decide_False. Qed.

Lemma select_channels_Raise (t : Tensor) (n h w : nat) :
  ¬ (n < size_n t ∧ h < size_h t ∧ w < size_w t)%nat →
  select_channels t n h w = Raise IndexError.
Proof. intros. unfold select_channels. by rewrite decide_False. Qed.

(** The loop body with its checks in the order the code makes them. *)
Lemma pixel_difference_checks (a b : Tensor) (height width h w : nat) :
  pixel_difference height width h w a b
  = if decide (0 < size_c a ∧ 0 < size_h a ∧ 0 < size_w a
               ∧ 0 < height ∧ 0 < width)%nat
    then if decide (0 < size_c b ∧ 0 < size_h b ∧ 0 < size_w b
                    ∧ 0 < height ∧ 0 < width)%nat
      then if decide (0 < size_n a ∧ h < height ∧ w < width)%nat
        then if decide (0 < size_n b ∧ h < height ∧ w < width)%nat
          then loss ← l1_loss_sum
                 ((λ c, bilinear_at a height width 0 c h w)
                    <$> seq 0 (size_c a))
                 ((λ c, bilinear_at b height width 0 c h w)
                    <$> seq 0 (size_c b));
               Ok (loss / Qc_of_nat (size_c a))
          else Raise IndexError
        else Raise IndexError
      else Raise RuntimeError
    else Raise RuntimeError.
Proof.
  unfold pixel_difference.
  destruct (decide (0 < size_c a ∧ 0 < size_h a ∧ 0 < size_w a
                    ∧ 0 < height ∧ 0 < width)%nat) as [Ha|Ha];
    [|by rewrite (interpolate_Raise a)].
  rewrite (interpolate_Ok a) by tauto. result_simpl.
  destruct (decide (0 < size_c b ∧ 0 < size_h b ∧ 0 < size_w b
                    ∧ 0 < height ∧ 0 < width)%nat) as [Hb|Hb];
    [|by rewrite (interpolate_Raise b)].
  rewrite (interpolate_Ok b) by tauto. result_simpl.
  set (a' := mkTensor (size_n a) (size_c a) height width
                      (bilinear_at a height width)).
  set (b' := mkTensor (size_n b) (size_c b) height width
                      (bilinear_at b height width)).
  destruct (decide (0 < size_n a ∧ h < height ∧ w < width)%nat) as [Hx|Hx];
    [|by rewrite (select_channels_Raise a')].
  rewrite (select_channels_Ok a') by (cbn; tauto). result_simpl.
  destruct (decide (0 < size_n b ∧ h < height ∧ w < width)%nat) as [Hy|Hy];
    [|by rewrite (select_channels_Raise b')].
  by rewrite (select_channels_Ok b') by (cbn; tauto).
Qed.

Lemma pixel_difference_batch0 (a a' b b' : Tensor)
    (height width h w : nat) :
  same_batch0 a a' → same_batch0 b b' →
  pixel_difference height width h w a b
  = pixel_difference height width h w a' b'.
Proof.
  intros (Han & Hac & Hah & Haw & Ha) (Hbn & Hbc & Hbh & Hbw & Hb).
  rewrite !pixel_difference_checks.
  rewrite <- Hac, <- Hah, <- Haw, <- Hbc, <- Hbh, <- Hbw.
  rewrite (list_fmap_ext (λ c, bilinear_at a' height width 0 c h w)
             (λ c, bilinear_at a height width 0 c h w) (seq 0 (size_c a)))
    by (intros; symmetry; by apply bilinear_at_batch0).
  rewrite (list_fmap_ext (λ c, bilinear_at b' height width 0 c h w)
             (λ c, bilinear_at b height width 0 c h w) (seq 0 (size_c b)))
    by (intros; symmetry; by apply bilinear_at_batch0).
  repeat case_decide; first [reflexivity | exfalso; tauto].
Qed.

(** X9.  Only batch entry 0 of a layer is read: two pairs of sequences
    whose layers have the same shapes and the same entries in batch
    entry 0 give the same result, map or exception. *)
Theorem only_batch_entry_0_is_read (A A' B B' : list Tensor) :
  Forall2 same_batch0 A A' → Forall2 same_batch0 B B' →
  perceptual_difference_per_pixel A B
  = perceptual_difference_per_pixel A' B'.
Proof.
  intros HA HB. rewrite !perceptual_difference_per_pixel_table.
  assert (Hpd : ∀ height width h w,
    perceptual_difference A B height width h w
    = perceptual_difference A' B' height width h w).
  { intros height width h w. unfold perceptual_difference.
    generalize (Q2Qc 0). revert B B' HB.
    induction HA as [|a a' A A' Ha _ IH]; intros B B' HB acc;
      destruct HB as [|b b' B B' Hb HB]; try reflexivity.
    cbn [zip_ for_each].
    rewrite (pixel_difference_batch0 a a' b b') by done.
    destruct (pixel_difference height width h w a' b') as [d|e];
      [|reflexivity].
    result_simpl. by apply IH. }
  destruct HA as [|fm0 fm0' A A' (_ & _ & Hh & Hw & _) HA]; [reflexivity|].
  cbn [getitem lookup list_lookup]. result_simpl. rewrite <- Hh, <- Hw.
  apply mapM_ext_in. intros h _. apply mapM_ext_in. intros w _. apply Hpd.
Qed.

Lemma only_batch_entry_0_is_read_witness :
  Forall2 same_batch0 demo_input
    ((λ t, mkTensor 4 (size_c t) (size_h t) (size_w t)
             (λ n c h w, if n is O then item t 0 c h w else 0))
       <$> demo_input)
  ∧ Forall2 same_batch0 demo_synthesized demo_synthesized
  ∧ perceptual_difference_per_pixel demo_input demo_synthesized
    = perceptual_difference_per_pixel
        ((λ t, mkTensor 4 (size_c t) (size_h t) (size_w t)
                 (λ n c h w, if n is O then item t 0 c h w else 0))
           <$> demo_input)
        demo_synthesized.
Proof.
  assert (H1 : Forall2 same_batch0 demo_input
    ((λ t, mkTensor 4 (size_c t) (size_h t) (size_w t)
             (λ n c h w, if n is O then item t 0 c h w else 0))
       <$> demo_input)).
  { repeat constructor; cbn; lia. }
  assert (H2 : Forall2 same_batch0 demo_synthesized demo_synthesized).
  { repeat constructor; cbn; lia. }
  split; [exact H1|]. split; [exact H2|].
  exact (only_batch_entry_0_is_read _ _ _ _ H1 H2).
Defined.

(** ** The loop over the frames *)




Lemma for_each_IO_app {S A} (body : S → A → IO S) (xs ys : list A) :
  ∀ (s : S) (fs : FileSystem),
    for_each body s (xs ++ ys) fs
    = match for_each body s xs fs with
      | (Ok s', fs') => for_each body s' ys fs'
      | (Raise e, fs') => (Raise e, fs')
      end.
Proof.
  induction xs as [|x xs IH]; intros s fs; [done|].
  cbn [app for_each]. unfold mbind, IO_bind.
  destruct (body s x fs) as [[s'|e] fs']; [|done]. apply IH.
Qed.

Section FramesProperties.
Variable decode : list byte → option Image.
Variable resample : Image → nat → nat → nat → nat → nat → byte.
Variable resnet18 : Tensor → list Tensor.
Variable render : Tensor → list byte.

Abbreviation heatmap_ := (heatmap decode resample resnet18 render).
Abbreviation process_frame_ :=
  (process_frame decode resample resnet18 render).
Abbreviation run_frames_ := (run_frames decode resample resnet18 render).

Lemma main_run_frames :
  main decode resample resnet18 render = run_frames_ (seq 1 1850).
Proof. reflexivity. Qed.



(** A frame writes at most its own output file. *)
Lemma process_frame_files (n : nat) (fs : FileSystem)
    (path : string * string) :
  path ≠ output_path n →
  files (process_frame_ n fs).2 !! path = files fs !! path.
Proof.
  intros Hpath. unfold process_frame, mbind, IO_bind.
  pose proof (heatmap_reads decode resample resnet18 render n fs) as Hfs.
  destruct (heatmap_ n fs) as [[data|e] fs']; cbn in Hfs; subst; [|done].
  unfold savefig. case_decide; [|done]. cbn.
  by rewrite lookup_insert_ne.
Qed.

(** A frame that raises leaves the file system as it found it. *)
Lemma process_frame_Raise (n : nat) (fs fs' : FileSystem) (e : exn) :
  process_frame_ n fs = (Raise e, fs') → fs' = fs.
Proof.
  unfold process_frame, mbind, IO_bind.
  pose proof (heatmap_reads decode resample resnet18 render n fs) as Hfs.
  destruct (heatmap_ n fs) as [[data|e'] fs'']; cbn in Hfs; subst.
  - unfold savefig. case_decide; [done|]. by intros [= _ <-].
  - by intros [= _ <-].
Qed.


Lemma run_frames_app (before after : list nat) (fs : FileSystem) :
  run_frames_ (before ++ after) fs
  = match run_frames_ before fs with
    | (Ok _, fs') => run_frames_ after fs'
    | (Raise e, fs') => (Raise e, fs')
    end.
Proof.
  unfold run_frames. rewrite for_each_IO_app.
  by destruct (for_each (M:=IO) _ () before fs) as [[[]|e] fs'].
Qed.
(** X10.  A frame whose input file, or else whose synthesized file, is
    missing or cannot be decoded raises the error of that file
    ([FileNotFoundError] or [UnidentifiedImageError], the input frame
    being tried first) and writes nothing, whether the output directory
    exists or not. *)
Theorem unreadable_frame_fails (fs : FileSystem) (n : nat) (e : exn) :
  load_error decode fs n = Some e →
  process_frame_ n fs = (Raise e, fs).
Proof.
  unfold load_error, file_error, process_frame, heatmap, mbind, IO_bind.
  fold (input_path n). fold (synthesized_path n). unfold Image_open.
  destruct (files fs !! input_path n) as [data|]; [|by intros [= <-]].
  destruct (decode data) as [img|]; [|by intros [= <-]].
  destruct (files fs !! synthesized_path n) as [data'|]; [|by intros [= <-]].
  destruct (decode data') as [img'|]; [done|by intros [= <-]].
Qed.

Lemma run_frames_cons (n : nat) (frames : list nat) (fs : FileSystem) :
  run_frames_ (n :: frames) fs
  = match process_frame_ n fs with
    | (Ok _, fs') => run_frames_ frames fs'
    | (Raise e, fs') => (Raise e, fs')
    end.
Proof.
  change (n :: frames) with ([n] ++ frames).
  rewrite (run_frames_app [n] frames fs). unfold run_frames at 1.
  cbn [for_each]. unfold mbind, IO_bind, mret, IO_ret.
  by destruct (process_frame_ n fs) as [[[]|e] fs'].
Qed.

Lemma run_frames_outside (frames : list nat) (path : string * string) :
  path.1 ≠ save_dir →
  ∀ fs, files (run_frames_ frames fs).2 !! path = files fs !! path
        ∧ directories (run_frames_ frames fs).2 = directories fs.
Proof.
  intros Hpath.
  induction frames as [|n frames IH]; intros fs; [done|].
  rewrite run_frames_cons.
  pose proof (process_frame_files n fs path) as Hfiles.
  pose proof (process_frame_directories decode resample resnet18 render
                n fs) as Hdirs.
  destruct (process_frame_ n fs) as [[u'|e] fs']; cbn in Hfiles, Hdirs.
  - destruct (IH fs') as [-> ->]. split; [|done].
    apply Hfiles. by intros ->.
  - split; [|done]. apply Hfiles. by intros ->.
Qed.

(** X11.  Whether it ends normally or with an exception, the run leaves
    every file outside the output directory as it was (in particular the
    frames it reads) and creates no directory. *)
Theorem run_touches_only_save_dir (fs : FileSystem)
    (path : string * string) :
  path.1 ≠ save_dir →
  files (main decode resample resnet18 render fs).2 !! path
  = files fs !! path
  ∧ directories (main decode resample resnet18 render fs).2
    = directories fs.
Proof. intros Hpath. rewrite main_run_frames. by apply run_frames_outside. Qed.

(** X12.  The run stops at the first frame that raises: the files of the
    frames before it stay written, and neither the failing frame nor any
    later frame writes anything. *)
Theorem run_stops_at_first_failure (fs fs1 : FileSystem) (k : nat)
    (e : exn) :
  (k < 1850)%nat →
  run_frames_ (seq 1 k) fs = (Ok (), fs1) →
  (process_frame_ (S k) fs1).1 = Raise e →
  main decode resample resnet18 render fs = (Raise e, fs1).
Proof.
  intros Hk Hbefore Hfail. rewrite main_run_frames.
  replace 1850%nat with (k + S (1850 - S k))%nat at 1 by lia.
  rewrite seq_app, run_frames_app, Hbefore.
  cbn [seq]. rewrite run_frames_cons. change (1 + k)%nat with (S k).
  destruct (process_frame_ (S k) fs1) as [[u|e'] fs2] eqn:Hframe;
    cbn in Hfail; [done|].
  injection Hfail as ->. by apply process_frame_Raise in Hframe as ->.
Qed.


End FramesProperties.

Lemma unreadable_frame_fails_witness :
  load_error decode_black frames_only 2 = Some FileNotFoundError
  ∧ process_frame decode_black resample_black tiny_network no_bytes 2
      frames_only
    = (Raise FileNotFoundError, frames_only).
Proof.
  split; [reflexivity|].
  apply (unreadable_frame_fails decode_black resample_black tiny_network
           no_bytes frames_only 2 FileNotFoundError).
  reflexivity.
Defined.

Lemma run_touches_only_save_dir_witness :
  (input_path 1).1 ≠ save_dir
  ∧ files (main decode_black resample_black tiny_network no_bytes
             two_frames).2 !! input_path 1
    = files two_frames !! input_path 1
  ∧ directories (main decode_black resample_black tiny_network no_bytes
                   two_frames).2
    = directories two_frames.
Proof.
  assert (Hpath : (input_path 1).1 ≠ save_dir) by done.
  split; [exact Hpath|].
  exact (run_touches_only_save_dir decode_black resample_black tiny_network
           no_bytes two_frames (input_path 1) Hpath).
Defined.

Lemma run_stops_at_first_failure_witness :
  (1 < 1850)%nat
  ∧ run_frames decode_black resample_black tiny_network no_bytes (seq 1 1)
      first_frame_only
    = (Ok (), first_frame_saved)
  ∧ (process_frame decode_black resample_black tiny_network no_bytes 2
       first_frame_saved).1
    = Raise FileNotFoundError
  ∧ main decode_black resample_black tiny_network no_bytes first_frame_only
    = (Raise FileNotFoundError, first_frame_saved).
Proof.
  assert (H1 : run_frames decode_black resample_black tiny_network no_bytes
                 (seq 1 1) first_frame_only
               = (Ok (), first_frame_saved)) by eval_eq.
  assert (H2 : (process_frame decode_black resample_black tiny_network
                  no_bytes 2 first_frame_saved).1
               = Raise FileNotFoundError) by eval_eq.
  split; [lia|]. split; [exact H1|]. split; [exact H2|].
  apply (run_stops_at_first_failure decode_black resample_black tiny_network
           no_bytes first_frame_only first_frame_saved 1 FileNotFoundError);
    [lia|exact H1|exact H2].
Defined.


(** ** Images that cannot be drawn, and the range of the preprocessed
       tensor *)


Section ThinImages.
Variable decode : list byte → option Image.
Variable resample : Image → nat → nat → nat → nat → nat → byte.
Variable resnet18 : Tensor → list Tensor.
Variable render : Tensor → list byte.

End ThinImages.






Section PreprocessRange.
Variable resample : Image → nat → nat → nat → nat → nat → byte.

End PreprocessRange.


(** ** [plot_all_feature_maps] *)





(** ResNet-18's second stage has 128 channels: the grid is 11 x 11, and
    the last 7 channels are not shown. *)
Example grid_128 : grid 128 = Ok (11, 11)%nat.
Proof. reflexivity. Qed.


Section PlotProperties.
Variable parents : string → list string.
Variable render_grid : string → nat → nat → list (option Map2) → list byte.


Lemma plot_layer_few_channels (title folder : string) (i : nat) (t : Tensor)
    (w : World) :
  (size_c t ≤ 1)%nat →
  plot_layer parents render_grid title folder i t w
  = (Raise (if decide (size_c t = 0%nat) then ZeroDivisionError
            else AttributeError),
     mkWorld (world_fs w) (stdout w ++ [layer_line i t])).
Proof.
  intros Hc. unfold plot_layer, mbind, Console_bind, print, lift_result,
    layer_line. cbv zeta.
  destruct (size_c t) as [|[|c]]; [reflexivity|reflexivity|lia].
Qed.

Lemma plot_from_cons (title folder : string) (k : nat) (t : Tensor)
    (layers : list Tensor) (w : World) :
  for_each (λ _ '(layer_index, feature_map_layer),
              plot_layer parents render_grid title folder layer_index
                feature_map_layer)
           () (imap (λ i t, ((k + i)%nat, t)) (t :: layers)) w
  = match plot_layer parents render_grid title folder k t w with
    | (Ok _, w') =>
        for_each (λ _ '(layer_index, feature_map_layer),
                    plot_layer parents render_grid title folder layer_index
                      feature_map_layer)
                 () (imap (λ i t, ((S k + i)%nat, t)) layers) w'
    | (Raise e, w') => (Raise e, w')
    end.
Proof.
  rewrite imap_cons. cbn [for_each]. unfold mbind at 1.
  unfold Console_bind at 1. rewrite Nat.add_0_r.
  rewrite (imap_ext _ (λ i t, ((S k + i)%nat, t)) layers)
    by (intros; cbn; f_equal; lia).
  by destruct (plot_layer _ _ _ _ k t w) as [[[]|e] w'].
Qed.

(** X17.  A first layer with no channel makes the function raise
    [ZeroDivisionError] (no rows to divide by), and a first layer with
    one channel [AttributeError] (a single subplot is no array of axes);
    in both cases the line for the layer has been printed and nothing
    was created or written. *)
Theorem few_channels_cannot_be_plotted (t : Tensor) (rest : list Tensor)
    (title folder : string) (w : World) :
  (size_c t ≤ 1)%nat →
  plot_all_feature_maps parents render_grid (t :: rest) title folder w
  = (Raise (if decide (size_c t = 0%nat) then ZeroDivisionError
            else AttributeError),
     mkWorld (world_fs w) (stdout w ++ [layer_line 0 t])).
Proof.
  intros Hc. unfold plot_all_feature_maps.
  pose proof (plot_from_cons title folder 0 t rest w) as Hcons.
  cbn [Nat.add] in Hcons. rewrite Hcons.
  by rewrite plot_layer_few_channels.
Qed.


End PlotProperties.

Lemma few_channels_cannot_be_plotted_witness :
  (size_c (full 1 2 2 0) ≤ 1)%nat
  ∧ plot_all_feature_maps no_parents blank_figure
      (full 1 2 2 0 :: full 4 2 2 0 :: nil) "Input" "out" empty_world
    = (Raise AttributeError,
       mkWorld (mkFS ∅ ∅) [layer_line 0 (full 1 2 2 0)]).
Proof.
  split; [cbn; lia|].
  apply (few_channels_cannot_be_plotted no_parents blank_figure
           (full 1 2 2 0) (full 4 2 2 0 :: nil) "Input" "out" empty_world).
  cbn. lia.
Defined.

